(** * anon-spliit: lockout guard, unlock orchestration and operation rate limiting

    A shallow embedding of three pieces of the repository:

    - [RateLimit]: the server-side authentication rate limiter
      (lib/rate-limit.ts): the module-level storage variables, the in-memory
      and database storage classes, and the synchronous and asynchronous
      public API;
    - [PasswordPrompt]: the client-side unlock form (its lockout bookkeeping
      and [handleSubmit]);
    - [Trpc]: the operation rate-limit middleware of trpc/init.ts.

    Numbers are JavaScript numbers holding integral millisecond timestamps
    and small counters; they are modelled by [Z].  [Date.now()] is an input
    of every operation that reads the clock. *)

From Stdlib Require Import ZArith Lia.
From Stdlib Require DecimalString.
From stdpp Require Import base option list gmap strings.

Local Open Scope Z_scope.

(** ** JavaScript helpers *)

(** Truthiness of a [number | undefined] (or [number | null]) value:
    [undefined], [null] and [0] are falsy. *)
Definition truthy (o : option Z) : bool :=
  match o with
  | Some v => negb (v =? 0)
  | None => false
  end.

(** [Math.ceil(a / b)] for an integral [a] and a positive integral [b]. *)
Definition ceil_div (a b : Z) : Z := - ((- a) / b).

Module RateLimit.

(** *** Configuration *)

Definition MAX_ATTEMPTS : Z := 5.
Definition WINDOW_MS : Z := 15 * 60 * 1000.
Definition LOCKOUT_MS : Z := 30 * 60 * 1000.
Definition CLEANUP_INTERVAL_MS : Z := 5 * 60 * 1000.

(** [type StorageType = 'memory' | 'database' | 'auto'] *)
Inductive StorageType := memory | database | auto.

(** *** Storage interface *)

Record AttemptRecord := mkAttempt {
  count : Z;
  firstAttempt : Z;
  lockedUntil : option Z;
}.

(** Row of the [RateLimitAttempt] table; the primary key [id] is the key of
    the table map. *)
Record DbRateLimitRecord := mkDbRecord {
  db_count : Z;
  db_firstAttempt : Z;
  db_lockedUntil : option Z;
  db_updatedAt : Z;
}.

(** [class MemoryStorage]: the private [attempts] map.  The interval timer
    is not part of the state; its ticks are the calls of [mem_cleanup]. *)
Record MemoryStorage := mkMemory {
  attempts : gmap string AttemptRecord;
}.

(** [class DatabaseStorage]: the cached [tableExists] flag. *)
Record DatabaseStorage := mkDatabase {
  tableExists : option bool;
}.

(** What the module variable [storage] points to.  It is only ever assigned
    the object that was just stored in [memoryStorage] or in
    [databaseStorage], so it is an alias of one of the two. *)
Inductive StorageRef := TheMemoryStorage | TheDatabaseStorage.

(** The module-level variables, together with the table behind [prisma]:
    [None] is a missing or unreachable table, on which every query throws. *)
Record State := mkState {
  storage : option StorageRef;
  databaseStorage : option DatabaseStorage;
  memoryStorage : option MemoryStorage;
  prisma : option (gmap string DbRateLimitRecord);
}.

Definition initial (table : option (gmap string DbRateLimitRecord)) : State :=
  mkState None None None table.

Definition set_storage (r : StorageRef) (s : State) : State :=
  mkState (Some r) (databaseStorage s) (memoryStorage s) (prisma s).
Definition set_databaseStorage (d : DatabaseStorage) (s : State) : State :=
  mkState (storage s) (Some d) (memoryStorage s) (prisma s).
Definition set_memoryStorage (m : MemoryStorage) (s : State) : State :=
  mkState (storage s) (databaseStorage s) (Some m) (prisma s).
Definition set_prisma (t : option (gmap string DbRateLimitRecord)) (s : State)
  : State :=
  mkState (storage s) (databaseStorage s) (memoryStorage s) t.

(** The map of the object in [memoryStorage] (empty before it is created). *)
Definition attempts_of (s : State) : gmap string AttemptRecord :=
  match memoryStorage s with
  | Some m => attempts m
  | None => ∅
  end.

(** *** A state monad for the module's procedures *)

Definition M (A : Type) : Type := State → A * State.
Definition ret {A} (a : A) : M A := λ s, (a, s).
Definition bind {A B} (c : M A) (k : A → M B) : M B :=
  λ s, let '(a, s') := c s in k a s'.
Definition get_state : M State := λ s, (s, s).
Definition modify (f : State → State) : M unit := λ s, (tt, f s).

Notation "x <- c ;; k" := (bind c (λ x, k))
  (at level 100, c at next level, right associativity).
Notation "c ;;; k" := (bind c (λ _, k))
  (at level 100, right associativity).

(** *** In-memory storage *)

(** The two tests of [MemoryStorage.cleanup]. *)
Definition stale (now : Z) (r : AttemptRecord) : bool :=
  (negb (truthy (lockedUntil r)) && (now - firstAttempt r >? WINDOW_MS))
  || (truthy (lockedUntil r)
      && match lockedUntil r with Some l => now >? l | None => false end).

Definition mem_cleanup (now : Z) (m : MemoryStorage) : MemoryStorage :=
  mkMemory (filter (λ kv, stale now kv.2 = false) (attempts m)).

(** *** Database storage *)

Definition new_DatabaseStorage : DatabaseStorage := mkDatabase None.
Definition new_MemoryStorage : MemoryStorage := mkMemory ∅.

(** [DatabaseStorage.checkTableExists], on the object in [databaseStorage]. *)
Definition checkTableExists : M bool :=
  s <- get_state ;;
  match databaseStorage s with
  | Some d =>
      match tableExists d with
      | Some b => ret b
      | None =>
          let b := match prisma s with Some _ => true | None => false end in
          modify (set_databaseStorage (mkDatabase (Some b))) ;;;
          ret b
      end
  | None => ret false
  end.

Definition of_db (r : DbRateLimitRecord) : AttemptRecord :=
  mkAttempt (db_count r) (db_firstAttempt r) (db_lockedUntil r).

Definition db_get (key : string) : M (option AttemptRecord) :=
  ok <- checkTableExists ;;
  if negb ok then ret None
  else
    s <- get_state ;;
    match prisma s with
    | Some table => ret (of_db <$> table !! key)
    | None => ret None
    end.

Definition db_set (key : string) (record : AttemptRecord) (now : Z) : M unit :=
  ok <- checkTableExists ;;
  if negb ok then ret tt
  else
    s <- get_state ;;
    match prisma s with
    | Some table =>
        let locked :=
          if truthy (lockedUntil record) then lockedUntil record else None in
        modify (set_prisma (Some (<[key :=
          mkDbRecord (count record) (firstAttempt record) locked now]> table)))
    | None => ret tt
    end.

Definition db_delete (key : string) : M unit :=
  ok <- checkTableExists ;;
  if negb ok then ret tt
  else
    s <- get_state ;;
    match prisma s with
    | Some table => modify (set_prisma (Some (delete key table)))
    | None => ret tt
    end.

(** *** The storage capability, dispatched on the object *)

Definition store_get (r : StorageRef) (key : string)
  : M (option AttemptRecord) :=
  match r with
  | TheMemoryStorage => s <- get_state ;; ret (attempts_of s !! key)
  | TheDatabaseStorage => db_get key
  end.

Definition store_set (r : StorageRef) (key : string) (record : AttemptRecord)
    (now : Z) : M unit :=
  match r with
  | TheMemoryStorage =>
      s <- get_state ;;
      modify (set_memoryStorage (mkMemory (<[key := record]> (attempts_of s))))
  | TheDatabaseStorage => db_set key record now
  end.

Definition store_delete (r : StorageRef) (key : string) : M unit :=
  match r with
  | TheMemoryStorage =>
      s <- get_state ;;
      modify (set_memoryStorage (mkMemory (delete key (attempts_of s))))
  | TheDatabaseStorage => db_delete key
  end.

(** *** Storage factory *)

Definition checkDatabaseAvailable : M bool :=
  s <- get_state ;;
  ret (match prisma s with Some _ => true | None => false end).

Definition getStorage (STORAGE_TYPE : StorageType) : M StorageRef :=
  s <- get_state ;;
  match storage s with
  | Some r => ret r
  | None =>
      match STORAGE_TYPE with
      | database =>
          modify (set_databaseStorage new_DatabaseStorage) ;;;
          modify (set_storage TheDatabaseStorage) ;;;
          ret TheDatabaseStorage
      | auto =>
          modify (set_databaseStorage new_DatabaseStorage) ;;;
          testRecord <- db_get "__test__" ;;
          available <-
            match testRecord with
            | Some _ => ret true
            | None => checkDatabaseAvailable
            end ;;
          if (available : bool) then
            modify (set_storage TheDatabaseStorage) ;;;
            ret TheDatabaseStorage
          else
            modify (set_memoryStorage new_MemoryStorage) ;;;
            modify (set_storage TheMemoryStorage) ;;;
            ret TheMemoryStorage
      | memory =>
          modify (set_memoryStorage new_MemoryStorage) ;;;
          modify (set_storage TheMemoryStorage) ;;;
          ret TheMemoryStorage
      end
  end.

Definition getStorageSync : M StorageRef :=
  s <- get_state ;;
  match storage s with
  | Some r => ret r
  | None =>
      match memoryStorage s with
      | Some _ => ret TheMemoryStorage
      | None =>
          modify (set_memoryStorage new_MemoryStorage) ;;;
          ret TheMemoryStorage
      end
  end.

(** *** Public API *)

Record CheckResult := mkResult {
  isLimited : bool;
  retryAfter : option Z;
  remainingAttempts : option Z;
}.

Definition not_limited (remaining : Z) : CheckResult :=
  mkResult false None (Some remaining).
Definition limited (seconds : Z) : CheckResult :=
  mkResult true (Some seconds) None.

(** [record.lockedUntil && now < record.lockedUntil]: the lock, when it is
    set and still ahead of [now]. *)
Definition active_lock (now : Z) (record : AttemptRecord) : option Z :=
  match lockedUntil record with
  | Some l => if negb (l =? 0) && (now <? l) then Some l else None
  | None => None
  end.

Definition with_lockedUntil (l : Z) (record : AttemptRecord) : AttemptRecord :=
  mkAttempt (count record) (firstAttempt record) (Some l).

(** [record.count++] followed by the lockout test. *)
Definition bump (now : Z) (record : AttemptRecord) : AttemptRecord :=
  let c := count record + 1 in
  mkAttempt c (firstAttempt record)
    (if c >=? MAX_ATTEMPTS then Some (now + LOCKOUT_MS)
     else lockedUntil record).

Definition fresh (now : Z) : AttemptRecord := mkAttempt 1 now None.

(** Writes through the private map of the object in [memoryStorage]. *)
Definition attempts_set (key : string) (record : AttemptRecord) : M unit :=
  s <- get_state ;;
  modify (set_memoryStorage (mkMemory (<[key := record]> (attempts_of s)))).

Definition attempts_delete (key : string) : M unit :=
  s <- get_state ;;
  modify (set_memoryStorage (mkMemory (delete key (attempts_of s)))).

Definition checkRateLimitSync (store : StorageRef) (key : string) (now : Z)
  : M CheckResult :=
  match store with
  | TheDatabaseStorage => ret (not_limited MAX_ATTEMPTS)
  | TheMemoryStorage =>
      s <- get_state ;;
      match attempts_of s !! key with
      | None => ret (not_limited MAX_ATTEMPTS)
      | Some record =>
          match active_lock now record with
          | Some l => ret (limited (ceil_div (l - now) 1000))
          | None =>
              if now - firstAttempt record >? WINDOW_MS then
                attempts_delete key ;;;
                ret (not_limited MAX_ATTEMPTS)
              else if count record >=? MAX_ATTEMPTS then
                attempts_set key (with_lockedUntil (now + LOCKOUT_MS) record) ;;;
                ret (limited (ceil_div LOCKOUT_MS 1000))
              else ret (not_limited (MAX_ATTEMPTS - count record))
          end
      end
  end.

Section API.

(** [String.prototype.toLowerCase], left abstract: nothing below depends on
    how it maps characters. *)
Variable toLowerCase : string → string.

(** [process.env.RATE_LIMIT_STORAGE || 'memory'] *)
Variable STORAGE_TYPE : StorageType.

Definition checkRateLimit (email : string) (now : Z) : M CheckResult :=
  store <- getStorageSync ;;
  checkRateLimitSync store (toLowerCase email) now.

(** The asynchronous procedures are run to completion, one at a time. *)
Definition checkRateLimitAsync (email : string) (now : Z) : M CheckResult :=
  store <- getStorage STORAGE_TYPE ;;
  let key := toLowerCase email in
  found <- store_get store key ;;
  match found with
  | None => ret (not_limited MAX_ATTEMPTS)
  | Some record =>
      match active_lock now record with
      | Some l => ret (limited (ceil_div (l - now) 1000))
      | None =>
          if now - firstAttempt record >? WINDOW_MS then
            store_delete store key ;;;
            ret (not_limited MAX_ATTEMPTS)
          else if count record >=? MAX_ATTEMPTS then
            store_set store key (with_lockedUntil (now + LOCKOUT_MS) record) now ;;;
            ret (limited (ceil_div LOCKOUT_MS 1000))
          else ret (not_limited (MAX_ATTEMPTS - count record))
      end
  end.

Definition recordFailedAttemptAsync (email : string) (now : Z) : M unit :=
  store <- getStorage STORAGE_TYPE ;;
  let key := toLowerCase email in
  found <- store_get store key ;;
  match found with
  | None => store_set store key (fresh now) now
  | Some record =>
      if now - firstAttempt record >? WINDOW_MS then
        store_set store key (fresh now) now
      else store_set store key (bump now record) now
  end.

(** In the database branch the asynchronous call is fired and forgotten;
    it is modelled as completing before the next call. *)
Definition recordFailedAttempt (email : string) (now : Z) : M unit :=
  let key := toLowerCase email in
  store <- getStorageSync ;;
  match store with
  | TheMemoryStorage =>
      s <- get_state ;;
      match attempts_of s !! key with
      | None => attempts_set key (fresh now)
      | Some record =>
          if now - firstAttempt record >? WINDOW_MS then
            attempts_set key (fresh now)
          else attempts_set key (bump now record)
      end
  | TheDatabaseStorage => recordFailedAttemptAsync email now
  end.

Definition clearAttemptsAsync (email : string) : M unit :=
  store <- getStorage STORAGE_TYPE ;;
  store_delete store (toLowerCase email).

Definition clearAttempts (email : string) : M unit :=
  let key := toLowerCase email in
  store <- getStorageSync ;;
  match store with
  | TheMemoryStorage => attempts_delete key
  | TheDatabaseStorage => clearAttemptsAsync email
  end.

(** ['database'], ['memory'], or the configured type while [storage] is
    not initialised. *)
Definition getStorageType (s : State) : StorageType :=
  match storage s with
  | Some TheDatabaseStorage => database
  | Some TheMemoryStorage => memory
  | None => STORAGE_TYPE
  end.

(** A tick of the interval timer of the object in [memoryStorage]. *)
Definition cleanupTick (now : Z) : M unit :=
  s <- get_state ;;
  match memoryStorage s with
  | Some m => modify (set_memoryStorage (mem_cleanup now m))
  | None => ret tt
  end.

(** [recordFailedAttempt] called once per clock reading of [times]. *)
Fixpoint recordFailures (email : string) (times : list Z) : M unit :=
  match times with
  | [] => ret tt
  | now :: rest => recordFailedAttempt email now ;;; recordFailures email rest
  end.

(** *** Call sequences *)

Inductive Call :=
  | CallCheck (email : string) (now : Z)
  | CallCheckAsync (email : string) (now : Z)
  | CallRecord (email : string) (now : Z)
  | CallRecordAsync (email : string) (now : Z)
  | CallClear (email : string)
  | CallClearAsync (email : string)
  | TimerTick (now : Z).

(** What a caller sees of one call: the result of a check, nothing of a
    procedure returning [void]. *)
Definition call (c : Call) : M (option CheckResult) :=
  match c with
  | CallCheck email now => r <- checkRateLimit email now ;; ret (Some r)
  | CallCheckAsync email now => r <- checkRateLimitAsync email now ;; ret (Some r)
  | CallRecord email now => recordFailedAttempt email now ;;; ret None
  | CallRecordAsync email now => recordFailedAttemptAsync email now ;;; ret None
  | CallClear email => clearAttempts email ;;; ret None
  | CallClearAsync email => clearAttemptsAsync email ;;; ret None
  | TimerTick now => cleanupTick now ;;; ret None
  end.

Fixpoint run (calls : list Call) : M (list (option CheckResult)) :=
  match calls with
  | [] => ret []
  | c :: rest => o <- call c ;; os <- run rest ;; ret (o :: os)
  end.

End API.

(** *** Notions used to state the properties *)

(** The record that [recordFailedAttempt] leaves under a key, from the one
    it found there. *)
Definition recorded (now : Z) (found : option AttemptRecord) : AttemptRecord :=
  match found with
  | None => fresh now
  | Some record =>
      if now - firstAttempt record >? WINDOW_MS then fresh now
      else bump now record
  end.

(** The result of the synchronous check, from the record under the key. *)
Definition verdict (now : Z) (found : option AttemptRecord) : CheckResult :=
  match found with
  | None => not_limited MAX_ATTEMPTS
  | Some record =>
      match active_lock now record with
      | Some l => limited (ceil_div (l - now) 1000)
      | None =>
          if now - firstAttempt record >? WINDOW_MS
          then not_limited MAX_ATTEMPTS
          else if count record >=? MAX_ATTEMPTS
               then limited (ceil_div LOCKOUT_MS 1000)
               else not_limited (MAX_ATTEMPTS - count record)
      end
  end.

(** The states of an [auto] run whose table is unreachable, against those of
    a [memory] run: same [storage] alias and same in-memory object, never
    the database storage. *)
Definition fallback_related (s1 s2 : State) : Prop :=
  storage s1 = storage s2
  ∧ memoryStorage s1 = memoryStorage s2
  ∧ storage s1 ≠ Some TheDatabaseStorage
  ∧ prisma s1 = None.

End RateLimit.

(** ** The unlock form (client side) *)

Module PasswordPrompt.

Definition RATE_LIMIT_ATTEMPTS : Z := 5.
Definition RATE_LIMIT_WINDOW_MS : Z := 60000.
Definition LOCKOUT_DURATION_MS : Z := 300000.

(** lib/storage.ts *)
Definition ENCRYPTION_KEY_PREFIX : string := "spliit-e2ee-key-".
Definition SESSION_PWD_KEY_PREFIX : string := "spliit-pwd-key-".

Definition getStorageKey (groupId : string) : string :=
  "password-lockout:" +:+ groupId.

Record RateLimitState := mkRateLimitState {
  rl_attempts : list Z;
  rl_lockedUntil : option Z;
}.

(** *** Web storage

    A [Storage] object of the browser.  Access can be denied altogether
    ([denied]: every call throws), and a write can be refused for a given
    key and value ([refuses], as when the quota is exceeded). *)
Record WebStorage := mkWebStorage {
  items : gmap string string;
  denied : bool;
  refuses : string → string → bool;
}.

Inductive Thrown := thrown.

(** [storage.getItem(key)]: the stored string or [null], or an exception. *)
Definition getItem (key : string) (st : WebStorage)
  : Thrown + option string :=
  if denied st then inl thrown else inr (items st !! key).

(** [storage.setItem(key, value)]: the updated storage, or an exception. *)
Definition setItem (key value : string) (st : WebStorage)
  : Thrown + WebStorage :=
  if denied st || refuses st key value then inl thrown
  else inr (mkWebStorage (<[key := value]> (items st)) (denied st) (refuses st)).

Record Browser := mkBrowser {
  localStorage : WebStorage;
  sessionStorage : WebStorage;
}.

(** *** Component state and props *)

Definition Key : Type := list Byte.byte.

Inductive ErrorKey := errors_empty | errors_tooManyAttempts | errors_invalid.

Record Component := mkComponent {
  password : string;
  showPassword : bool;
  isLoading : bool;
  error : option ErrorKey;
  attempts : list Z;
  lockedUntil : option Z;
}.

Definition setPassword (v : string) (c : Component) : Component :=
  mkComponent v (showPassword c) (isLoading c) (error c) (attempts c)
    (lockedUntil c).
Definition setIsLoading (v : bool) (c : Component) : Component :=
  mkComponent (password c) (showPassword c) v (error c) (attempts c)
    (lockedUntil c).
Definition setError (v : option ErrorKey) (c : Component) : Component :=
  mkComponent (password c) (showPassword c) (isLoading c) v (attempts c)
    (lockedUntil c).
Definition setAttempts (v : list Z) (c : Component) : Component :=
  mkComponent (password c) (showPassword c) (isLoading c) (error c) v
    (lockedUntil c).
Definition setLockedUntil (v : option Z) (c : Component) : Component :=
  mkComponent (password c) (showPassword c) (isLoading c) (error c)
    (attempts c) v.

(** [onSuccess] is the caller's continuation: [false] when it throws. *)
Record Props := mkProps {
  groupId : string;
  passwordSalt : string;
  passwordHint : option string;
  urlKey : option Key;
  encryptedGroupName : option string;
  onSuccess : Key → bool;
}.

(** The clock readings of one submission, in program order: in
    [isRateLimited], when a lockout is started, when a failure is
    recorded. *)
Record Clock := mkClock {
  now_check : Z;
  now_lockout : Z;
  now_failure : Z;
}.

(** Calls into lib/crypto and into the continuation. *)
Inductive Event :=
  | EvDerive (password : string) (salt : Key) (keyLengthBytes : Z)
  | EvCombine (urlKey passwordKey : Key)
  | EvDecrypt (ciphertext : string) (key : Key)
  | EvOnSuccess (key : Key).

Definition is_decrypt (e : Event) : bool :=
  match e with
  | EvDecrypt _ _ => true
  | _ => false
  end.

(** [lockedUntil && now < lockedUntil] *)
Definition locked_at (now : Z) (l : option Z) : bool :=
  truthy l && match l with Some v => now <? v | None => false end.

(** [attempts.filter((time) => now - time < RATE_LIMIT_WINDOW_MS)] *)
Definition recent (now : Z) (times : list Z) : list Z :=
  filter (λ time, now - time < RATE_LIMIT_WINDOW_MS) times.

(** [Math.max(0, Math.ceil((lockedUntil - Date.now()) / 1000))] *)
Definition remainingLockoutTime (now : Z) (c : Component) : Z :=
  match lockedUntil c with
  | Some l => if l =? 0 then 0 else Z.max 0 (ceil_div (l - now) 1000)
  | None => 0
  end.

(** The form shows the lockout: the too-many-attempts error together with a
    positive countdown. *)
Definition surfaces_lockout (now : Z) (c : Component) : Prop :=
  error c = Some errors_tooManyAttempts ∧ 0 < remainingLockoutTime now c.

(** [encryptedGroupName] is falsy: [null], [undefined] or the empty
    string. *)
Definition absent (probe : option string) : Prop :=
  probe = None ∨ probe = Some "".

Section Form.

(** [String.prototype.trim], [JSON.stringify] and [JSON.parse] (which
    throws on malformed text: [None]). *)
Variable trim : string → string.
Variable JSON_stringify : RateLimitState → string.
Variable JSON_parse : string → option RateLimitState.

(** lib/crypto; [None] is a thrown exception or a rejected promise. *)
Variable base64ToKey : string → option Key.
Variable deriveKeyFromPassword : string → Key → Z → option Key.
Variable combineKeys : Key → Key → option Key.
Variable decrypt : string → Key → option string.
Variable keyToBase64 : Key → string.

Definition loadRateLimitState (groupId : string) (b : Browser)
  : option RateLimitState :=
  match getItem (getStorageKey groupId) (localStorage b) with
  | inr (Some stored) =>
      if bool_decide (stored = "") then None else JSON_parse stored
  | inr None => None
  | inl thrown => None
  end.

Definition saveRateLimitState (groupId : string) (state : RateLimitState)
    (b : Browser) : Browser :=
  match setItem (getStorageKey groupId) (JSON_stringify state)
          (localStorage b) with
  | inr ls => mkBrowser ls (sessionStorage b)
  | inl thrown => b
  end.

(** The effect run on mount: restore the persisted lockout state. *)
Definition restoreEffect (p : Props) (now : Z) (c : Component) (b : Browser)
  : Component :=
  match loadRateLimitState (groupId p) b with
  | Some stored =>
      let c1 :=
        if truthy (rl_lockedUntil stored)
           && match rl_lockedUntil stored with
              | Some l => l >? now
              | None => false
              end
        then setLockedUntil (rl_lockedUntil stored) c
        else c in
      let recentAttempts := recent now (rl_attempts stored) in
      if Z.of_nat (length recentAttempts) >? 0
      then setAttempts recentAttempts c1
      else c1
  | None => c
  end.

(** The effect run when [attempts] or [lockedUntil] changed. *)
Definition persistEffect (p : Props) (c : Component) (b : Browser) : Browser :=
  saveRateLimitState (groupId p)
    (mkRateLimitState (attempts c) (lockedUntil c)) b.

Definition isRateLimited (now : Z) (c : Component) : bool * Component :=
  if locked_at now (lockedUntil c) then (true, c)
  else
    let recentAttempts := recent now (attempts c) in
    (Z.of_nat (length recentAttempts) >=? RATE_LIMIT_ATTEMPTS,
     setAttempts recentAttempts c).

(** Both [catch] blocks of [handleSubmit]: count a failed attempt, show the
    generic error and clear the input. *)
Definition recordInvalid (now : Z) (c : Component) : Component :=
  setPassword "" (setError (Some errors_invalid)
    (setAttempts (attempts c ++ [now]) c)).

(** The verification step: decrypt the probe when there is one. *)
Inductive Verdict := Verified (key : Key) | WrongPassword.

Definition verify (probe : option string) (finalKey : Key)
  : Verdict * list Event :=
  match probe with
  | Some ciphertext =>
      if bool_decide (ciphertext = "") then (Verified finalKey, [])
      else
        match decrypt ciphertext finalKey with
        | Some _ => (Verified finalKey, [EvDecrypt ciphertext finalKey])
        | None => (WrongPassword, [EvDecrypt ciphertext finalKey])
        end
  | None => (Verified finalKey, [])
  end.

(** Key derivation and combination; [None] when a step throws. *)
Definition deriveFinalKey (p : Props) (pw : string)
  : option (Key * Key) * list Event :=
  match base64ToKey (passwordSalt p) with
  | None => (None, [])
  | Some salt =>
      let keyLengthBytes :=
        match urlKey p with
        | Some u => Z.of_nat (length u)
        | None => 32
        end in
      match deriveKeyFromPassword pw salt keyLengthBytes with
      | None => (None, [EvDerive pw salt keyLengthBytes])
      | Some passwordKey =>
          match urlKey p with
          | Some u =>
              match combineKeys u passwordKey with
              | Some finalKey =>
                  (Some (passwordKey, finalKey),
                   [EvDerive pw salt keyLengthBytes; EvCombine u passwordKey])
              | None =>
                  (None,
                   [EvDerive pw salt keyLengthBytes; EvCombine u passwordKey])
              end
          | None =>
              (Some (passwordKey, passwordKey),
               [EvDerive pw salt keyLengthBytes])
          end
      end
  end.

(** Persist the keys and hand the final key to the continuation: the part
    of the [try] block after the verification.  [None] when a step throws
    into the outer [catch]. *)
Definition persistAndContinue (p : Props) (passwordKey finalKey : Key)
    (b : Browser) : option unit * Browser * list Event :=
  let keyBase64 := keyToBase64 finalKey in
  let b1 :=
    match setItem (ENCRYPTION_KEY_PREFIX +:+ groupId p) keyBase64
            (localStorage b) with
    | inr ls => mkBrowser ls (sessionStorage b)
    | inl thrown => b
    end in
  match setItem (SESSION_PWD_KEY_PREFIX +:+ groupId p)
          (keyToBase64 passwordKey) (sessionStorage b1) with
  | inl thrown => (None, b1, [])
  | inr ss =>
      let b2 := mkBrowser (localStorage b1) ss in
      if onSuccess p finalKey then (Some tt, b2, [EvOnSuccess finalKey])
      else (None, b2, [EvOnSuccess finalKey])
  end.

(** The [try]/[catch]/[finally] of [handleSubmit]. *)
Definition attemptUnlock (p : Props) (clock : Clock) (pw : string)
    (c : Component) (b : Browser) : Component * Browser * list Event :=
  let '(c', b', trace) :=
    match deriveFinalKey p pw with
    | (None, trace) => (recordInvalid (now_failure clock) c, b, trace)
    | (Some (passwordKey, finalKey), trace) =>
        match verify (encryptedGroupName p) finalKey with
        | (WrongPassword, trace_v) =>
            (setIsLoading false (recordInvalid (now_failure clock) c), b,
             trace ++ trace_v)
        | (Verified key, trace_v) =>
            match persistAndContinue p passwordKey key b with
            | (Some _, b2, trace_p) => (c, b2, trace ++ trace_v ++ trace_p)
            | (None, b2, trace_p) =>
                (recordInvalid (now_failure clock) c, b2,
                 trace ++ trace_v ++ trace_p)
            end
        end
    end in
  (setIsLoading false c', b', trace).

Definition handleSubmit (p : Props) (clock : Clock) (c : Component)
    (b : Browser) : Component * Browser * list Event :=
  if bool_decide (trim (password c) = "") then
    (setError (Some errors_empty) c, b, [])
  else
    let '(isLimited, c1) := isRateLimited (now_check clock) c in
    if isLimited then
      let now := now_lockout clock in
      let c2 :=
        if negb (truthy (lockedUntil c))
           || match lockedUntil c with Some l => now >=? l | None => true end
        then setLockedUntil (Some (now + LOCKOUT_DURATION_MS)) c1
        else c1 in
      (setError (Some errors_tooManyAttempts) c2, b, [])
    else
      attemptUnlock p clock (password c)
        (setError None (setIsLoading true c1)) b.

(** One submission followed by the render that persists the new state. *)
Definition submit (p : Props) (clock : Clock) (c : Component) (b : Browser)
  : Component * Browser * list Event :=
  let '(c', b', trace) := handleSubmit p clock c b in
  (c', persistEffect p c' b', trace).

End Form.

End PasswordPrompt.

(** ** The operation rate-limit middleware (trpc/init.ts) *)

Module Trpc.

(** [TInput extends { groupId: string }]; the parsed input may be missing
    at this point of the chain, and so may the property. *)
Record Input := mkInput {
  groupId : option string;
}.

(** [inputData?.groupId], when it is truthy (a non-empty string). *)
Definition groupId_of (inputData : option Input) : option string :=
  match inputData with
  | Some i =>
      match groupId i with
      | Some g => if bool_decide (g = "") then None else Some g
      | None => None
      end
  | None => None
  end.

Inductive ErrorCode := TOO_MANY_REQUESTS.

Record TRPCError := mkTRPCError {
  code : ErrorCode;
  message : string;
}.

(** What [checkOperationRateLimit] returns, as far as the middleware
    destructures it. *)
Record OperationLimit := mkOperationLimit {
  isLimited : bool;
  retryAfter : option Z;
}.

(** Decimal rendering of an integral number in a template string;
    [undefined] renders as its name. *)
Definition show_number (n : option Z) : string :=
  match n with
  | Some z => DecimalString.NilZero.string_of_int (Z.to_int z)
  | None => "undefined"
  end.

Definition rate_limit_key (operation groupId : string) : string :=
  operation +:+ ":" +:+ groupId.

Definition too_many_message (operation : string) (retryAfter : option Z)
  : string :=
  "Too many " +:+ operation +:+ " attempts. Please try again in "
    +:+ show_number retryAfter +:+ " seconds.".

(** Calls made by the middleware, in order. *)
Inductive Step :=
  | DidGetRawInput
  | DidCheck (key : string) (maxAttempts windowMs : Z)
  | DidRecord (key : string) (maxAttempts windowMs : Z)
  | DidNext.

Inductive Outcome (R : Type) :=
  | Returned (r : R)
  | Threw (e : TRPCError).
Arguments Returned {R} r.
Arguments Threw {R} e.

Section Middleware.

(** The limiter's store together with whatever the handler acts on. *)
Context {World Result : Type}.

(** [checkOperationRateLimit] and [recordOperationAttempt] of
    lib/rate-limit, and the rest of the procedure chain. *)
Variable checkOperationRateLimit :
  string → Z → Z → World → OperationLimit * World.
Variable recordOperationAttempt : string → Z → Z → World → World.
Variable next : World → Outcome Result * World.

Definition createRateLimitMiddleware (operation : string)
    (maxAttempts windowMs : Z) (input rawInput : option Input) (w : World)
  : Outcome Result * World * list Step :=
  let '(inputData, trace) :=
    match groupId_of input with
    | Some _ => (input, [])
    | None => (rawInput, [DidGetRawInput])
    end in
  match groupId_of inputData with
  | None =>
      let '(r, w') := next w in (r, w', trace ++ [DidNext])
  | Some g =>
      let key := rate_limit_key operation g in
      let '(limit, w1) := checkOperationRateLimit key maxAttempts windowMs w in
      if isLimited limit then
        (Threw (mkTRPCError TOO_MANY_REQUESTS
                  (too_many_message operation (retryAfter limit))),
         w1, trace ++ [DidCheck key maxAttempts windowMs])
      else
        let w2 := recordOperationAttempt key maxAttempts windowMs w1 in
        let '(r, w3) := next w2 in
        (r, w3,
         trace ++ [DidCheck key maxAttempts windowMs;
                   DidRecord key maxAttempts windowMs; DidNext])
  end.

(** routers/groups/expenses/create.procedure.ts: the limiter in front of
    the expense-creation handler, 100 per hour and group. *)
Definition HOUR_MS : Z := 60 * 60 * 1000.

Definition createGroupExpenseProcedure (input rawInput : option Input)
    (w : World) : Outcome Result * World * list Step :=
  createRateLimitMiddleware "create-expense" 100 HOUR_MS input rawInput w.

End Middleware.

(** The input the middleware ends up using: the parsed one when it has a
    group id, the raw one otherwise. *)
Definition raw_lookup (input : option Input) : list Step :=
  match groupId_of input with
  | Some _ => []
  | None => [DidGetRawInput]
  end.

Definition effective_groupId (input rawInput : option Input) : option string :=
  match groupId_of input with
  | Some g => Some g
  | None => groupId_of rawInput
  end.

End Trpc.

(** ** Concrete inputs used by the examples *)

Module Samples.

(** Lower-casing of the ASCII letters, other characters kept. *)
Definition lower_ascii (a : Ascii.ascii) : Ascii.ascii :=
  let n := Ascii.N_of_ascii a in
  if ((65 <=? n) && (n <=? 90))%N then Ascii.ascii_of_N (n + 32) else a.

Fixpoint ascii_toLowerCase (s : string) : string :=
  match s with
  | EmptyString => EmptyString
  | String a rest => String (lower_ascii a) (ascii_toLowerCase rest)
  end.

(** Trimming of the ASCII white space at both ends. *)
Definition is_space (a : Ascii.ascii) : bool :=
  let n := Ascii.N_of_ascii a in
  ((n =? 32) || ((9 <=? n) && (n <=? 13)))%N.

Fixpoint trim_left (s : string) : string :=
  match s with
  | EmptyString => EmptyString
  | String a rest => if is_space a then trim_left rest else s
  end.

Definition ascii_trim (s : string) : string :=
  String.rev (trim_left (String.rev (trim_left s))).

(** A toy stand-in for lib/crypto: enough structure to tell a right key
    from a wrong one. *)
Definition toy_base64ToKey (text : string) : option PasswordPrompt.Key :=
  Some (String.list_byte_of_string text).

Definition toy_keyToBase64 (key : PasswordPrompt.Key) : string :=
  String.string_of_list_byte key.

Definition toy_derive (pw : string) (salt : PasswordPrompt.Key) (n : Z)
  : option PasswordPrompt.Key :=
  Some (take (Z.to_nat n)
          (String.list_byte_of_string pw ++ salt
             ++ replicate (Z.to_nat n) Byte.x00)).

Definition toy_combine (a b : PasswordPrompt.Key) : option PasswordPrompt.Key :=
  if (length a =? length b)%nat then Some (b ++ a) else None.

Definition toy_decrypt (ciphertext : string) (key : PasswordPrompt.Key)
  : option string :=
  if String.eqb ciphertext (toy_keyToBase64 key) then Some "Holidays"
  else None.

Definition empty_storage : PasswordPrompt.WebStorage :=
  PasswordPrompt.mkWebStorage ∅ false (λ _ _, false).

(** Storage whose every access throws, as when the browser blocks site data. *)
Definition denied_storage : PasswordPrompt.WebStorage :=
  PasswordPrompt.mkWebStorage ∅ true (λ _ _, false).

(** A group without an encrypted probe and without a URL key. *)
Definition legacy_group : PasswordPrompt.Props :=
  PasswordPrompt.mkProps "g1" "c2FsdA==" None None None (λ _, true).

(** A group whose probe decrypts under the key derived from the password
    ["correct horse"]. *)
Definition protected_group : PasswordPrompt.Props :=
  PasswordPrompt.mkProps "g1" "c2FsdA==" None None
    (Some (toy_keyToBase64
             (take 32 (String.list_byte_of_string "correct horsec2FsdA=="
                         ++ replicate 32 Byte.x00))))
    (λ _, true).

Definition clock_at (now : Z) : PasswordPrompt.Clock :=
  PasswordPrompt.mkClock now now now.

Definition typed (pw : string) (times : list Z) (lock : option Z)
  : PasswordPrompt.Component :=
  PasswordPrompt.mkComponent pw false false None times lock.

(** The identity of rate-limit.test.ts. *)
Definition testEmail : string := "test@example.com".

(** A module on the database backend with a reachable, empty table, after
    six failures recorded for [testEmail]. *)
Definition database_after_failures : RateLimit.State :=
  (RateLimit.recordFailures ascii_toLowerCase RateLimit.database testEmail
     [1; 2; 3; 4; 5; 6]
     (RateLimit.getStorage RateLimit.database
        (RateLimit.initial (Some ∅))).2).2.

(** A memory-backed module after five failures within four seconds: the key
    is locked until 1804000. *)
Definition locked_in_memory : RateLimit.State :=
  (RateLimit.recordFailures ascii_toLowerCase RateLimit.memory testEmail
     [0; 1000; 2000; 3000; 4000] (RateLimit.initial None)).2.

(** A toy operation limiter: a counter per key, never reset. *)
Definition toy_check (key : string) (maxAttempts windowMs : Z)
    (w : gmap string Z) : Trpc.OperationLimit * gmap string Z :=
  (if default 0 (w !! key) >=? maxAttempts
   then Trpc.mkOperationLimit true (Some (windowMs / 1000))
   else Trpc.mkOperationLimit false None, w).

Definition toy_record (key : string) (maxAttempts windowMs : Z)
    (w : gmap string Z) : gmap string Z :=
  <[key := default 0 (w !! key) + 1]> w.

Definition toy_handler (w : gmap string Z)
  : Trpc.Outcome string * gmap string Z :=
  (Trpc.Returned "expense", w).

End Samples.

(** ** More of the rate limiter: sweeps and state notions *)

Module RateLimitSweep.
Import RateLimit.

(** The map of the in-memory storage after [checkRateLimitSync] has looked
    at [key]: a lapsed window is deleted, a full count is locked. *)
Definition after_check (now : Z) (key : string)
    (m : gmap string AttemptRecord) : gmap string AttemptRecord :=
  match m !! key with
  | None => m
  | Some record =>
      match active_lock now record with
      | Some _ => m
      | None =>
          if now - firstAttempt record >? WINDOW_MS then delete key m
          else if count record >=? MAX_ATTEMPTS
               then <[key := with_lockedUntil (now + LOCKOUT_MS) record]> m
               else m
      end
  end.

(** The [WHERE] clause of [DatabaseStorage.cleanup], with
    [windowCutoff = now - WINDOW_MS]. *)
Definition db_stale (now : Z) (row : DbRateLimitRecord) : bool :=
  match db_lockedUntil row with
  | Some l => l <? now
  | None => db_firstAttempt row <? now - WINDOW_MS
  end.

(** [DatabaseStorage.cleanup], on the object in [databaseStorage]. *)
Definition db_cleanup (now : Z) : M unit :=
  ok <- checkTableExists ;;
  if negb ok then ret tt
  else
    s <- get_state ;;
    match prisma s with
    | Some table =>
        modify (set_prisma
                  (Some (filter (λ kv, db_stale now kv.2 = false) table)))
    | None => ret tt
    end.

(** A procedure keeps an invariant of the module state. *)
Definition preserves {A} (P : State → Prop) (c : M A) : Prop :=
  ∀ s, P s → P (c s).2.


(** The database storage is the backend and its probe of the table
    failed. *)
Definition probe_failed (s : State) : Prop :=
  storage s = Some TheDatabaseStorage
  ∧ databaseStorage s = Some (mkDatabase (Some false)).

(** The lock, when there is one, ends after the window does. *)
Definition lock_outlives_window (record : AttemptRecord) : Prop :=
  match lockedUntil record with
  | Some l => firstAttempt record + WINDOW_MS ≤ l
  | None => True
  end.

(** What [db_set] stores of a record's [lockedUntil]. *)
Definition stored_lock (record : AttemptRecord) : option Z :=
  if truthy (lockedUntil record) then lockedUntil record else None.

(** The synchronous procedure that stands for a call. *)
Definition synchronous (c : Call) : Call :=
  match c with
  | CallCheckAsync email now => CallCheck email now
  | CallRecordAsync email now => CallRecord email now
  | CallClearAsync email => CallClear email
  | c => c
  end.

End RateLimitSweep.

(** ** The unlock form over several submissions and a reload *)

Module PasswordPromptSessions.
Import PasswordPrompt.

(** The state of a freshly mounted form: the initial values of its
    [useState] hooks. *)
Definition mounted : Component := mkComponent "" false false None [] None.

(** All clock readings of a submission fall in the interval of one window
    starting at [T]. *)
Definition within (T : Z) (clock : Clock) : Prop :=
  (T ≤ now_check clock < T + RATE_LIMIT_WINDOW_MS)
  ∧ (T ≤ now_lockout clock < T + RATE_LIMIT_WINDOW_MS)
  ∧ (T ≤ now_failure clock < T + RATE_LIMIT_WINDOW_MS).

(** Two storages that behave alike and hold the same items, except
    possibly under [key]. *)
Definition same_except (key : string) (st st' : WebStorage) : Prop :=
  denied st' = denied st
  ∧ refuses st' = refuses st
  ∧ ∀ k, k ≠ key → items st' !! k = items st !! k.

(** From [b] to [b'] nothing was written but, possibly, the lockout state of
    the group: the session storage is the same, and so is the local storage
    under every other key (the keys of the group among them). *)
Definition only_lockout_written (p : Props) (b b' : Browser) : Prop :=
  sessionStorage b' = sessionStorage b
  ∧ same_except (getStorageKey (groupId p)) (localStorage b)
      (localStorage b').

Section Sessions.

Variable trim : string → string.
Variable JSON_stringify : RateLimitState → string.
Variable JSON_parse : string → option RateLimitState.
Variable base64ToKey : string → option Key.
Variable deriveKeyFromPassword : string → Key → Z → option Key.
Variable combineKeys : Key → Key → option Key.
Variable decrypt : string → Key → option string.
Variable keyToBase64 : Key → string.

(** The user types a password and submits, once per element of [subs];
    every submission is followed by the render whose effect persists the
    lockout state. *)
Fixpoint submitAll (p : Props) (subs : list (string * Clock)) (c : Component)
    (b : Browser) : Component * Browser :=
  match subs with
  | [] => (c, b)
  | (pw, clock) :: rest =>
      let '(c', b', _) :=
        submit trim JSON_stringify base64ToKey deriveKeyFromPassword
          combineKeys decrypt keyToBase64 p clock (setPassword pw c) b in
      submitAll p rest c' b'
  end.

(** Local storage holds the lockout state of the form [c] under the key of
    the group. *)
Definition persisted (p : Props) (c : Component) (b : Browser) : Prop :=
  getItem (getStorageKey (groupId p)) (localStorage b)
  = inr (Some (JSON_stringify
                 (mkRateLimitState (attempts c) (lockedUntil c)))).

(** Local storage takes the write of the lockout state of [c]. *)
Definition accepts (p : Props) (c : Component) (b : Browser) : Prop :=
  setItem (getStorageKey (groupId p))
    (JSON_stringify (mkRateLimitState (attempts c) (lockedUntil c)))
    (localStorage b)
  ≠ inl thrown.

(** A password that is not blank, from which a key is derived, and under
    whose key the probe of the group does not decrypt. *)
Definition wrong_password (p : Props) (pw : string) : Prop :=
  trim pw ≠ ""
  ∧ ∃ passwordKey finalKey trace ciphertext,
      deriveFinalKey base64ToKey deriveKeyFromPassword combineKeys p pw
      = (Some (passwordKey, finalKey), trace)
      ∧ encryptedGroupName p = Some ciphertext
      ∧ ciphertext ≠ ""
      ∧ decrypt ciphertext finalKey = None.

(** The page is left and opened again at [now]: the state persisted by the
    last render is restored into a freshly mounted form. *)
Definition reload (p : Props) (now : Z) (c : Component) (b : Browser)
  : Component :=
  restoreEffect JSON_parse p now mounted (persistEffect JSON_stringify p c b).

End Sessions.

End PasswordPromptSessions.

(** ** Authentication middlewares and rate-limited procedures (trpc/init.ts) *)

Module TrpcAuth.
Import Trpc.

(** [ctx.session?.user], as far as the middlewares read it. *)
Record User := mkUser {
  isAdmin : bool;
  mustChangePassword : bool;
  requiresTwoFactor : bool;
}.

Record Session := mkSession {
  user : option User;
}.

Definition session_user (session : option Session) : option User :=
  match session with
  | Some s => user s
  | None => None
  end.

Inductive AuthCode := UNAUTHORIZED | FORBIDDEN | NOT_FOUND.

Record AuthError := mkAuthError {
  auth_code : AuthCode;
  auth_message : string;
}.

(** The checks on an authenticated user that both middlewares make. *)
Definition authentication_required : AuthError :=
  mkAuthError UNAUTHORIZED "Authentication required".
Definition two_factor_required : AuthError :=
  mkAuthError UNAUTHORIZED "Two-factor authentication required".
Definition password_change_required : AuthError :=
  mkAuthError FORBIDDEN "Password change required".
Definition admin_only_in_private_mode : AuthError :=
  mkAuthError NOT_FOUND
    "Admin features are only available in private instance mode".
Definition admin_required : AuthError :=
  mkAuthError FORBIDDEN "Admin access required".

(** The middleware of [publicProcedure]: the error it throws, or [None]
    when it calls [next]. *)
Definition publicProcedure (isPrivateInstance : bool)
    (session : option Session) : option AuthError :=
  if isPrivateInstance then
    match session_user session with
    | None => Some authentication_required
    | Some u =>
        if requiresTwoFactor u then Some two_factor_required
        else if mustChangePassword u then Some password_change_required
        else None
    end
  else None.

(** The middleware of [adminProcedure]. *)
Definition adminProcedure (isPrivateInstance : bool)
    (session : option Session) : option AuthError :=
  if negb isPrivateInstance then Some admin_only_in_private_mode
  else
    match session_user session with
    | None => Some authentication_required
    | Some u =>
        if requiresTwoFactor u then Some two_factor_required
        else if mustChangePassword u then Some password_change_required
        else if negb (isAdmin u) then Some admin_required
        else None
    end.

Section RateLimited.

Context {World Result : Type}.
Variable checkOperationRateLimit :
  string → Z → Z → World → OperationLimit * World.
Variable recordOperationAttempt : string → Z → Z → World → World.
Variable next : World → Outcome Result * World.

(** [publicProcedure.use(createRateLimitMiddleware(...))]: the rate-limit
    middleware runs as the [next] of the authentication middleware. *)
Definition createRateLimitedProcedure (operation : string)
    (maxAttempts windowMs : Z) (isPrivateInstance : bool)
    (session : option Session) (input rawInput : option Input) (w : World)
  : (AuthError + Outcome Result) * World * list Step :=
  match publicProcedure isPrivateInstance session with
  | Some e => (inl e, w, [])
  | None =>
      let '(r, w', trace) :=
        createRateLimitMiddleware checkOperationRateLimit
          recordOperationAttempt next operation maxAttempts windowMs
          input rawInput w in
      (inr r, w', trace)
  end.

End RateLimited.

(** The three rate-limited operations of the group routers. *)
Definition rate_limited_operations : list (string * Z) :=
  [("create-expense", 100); ("permanent-delete", 5); ("restore", 10)].

(** The character [:], code 58. *)
Definition colon : Ascii.ascii :=
  Ascii.Ascii false true false true true true false false.

(** No character of the string is a colon. *)
Fixpoint colon_free (s : string) : bool :=
  match s with
  | EmptyString => true
  | String a rest => negb (Ascii.eqb a colon) && colon_free rest
  end.

End TrpcAuth.

(** ** Safe local storage and the lists of groups kept in it
    (lib/storage.ts, app/groups/recent-groups-helpers.ts) *)

Module SafeStorage.
Import PasswordPrompt.

(** [storage.removeItem(key)] *)
Definition removeItem (key : string) (st : WebStorage) : Thrown + WebStorage :=
  if denied st then inl thrown
  else inr (mkWebStorage (delete key (items st)) (denied st) (refuses st)).

Definition safeGetItem (key : string) (ls : WebStorage) : option string :=
  match getItem key ls with
  | inr item => item
  | inl thrown => None
  end.

Definition safeSetItem (key value : string) (ls : WebStorage)
  : bool * WebStorage :=
  match setItem key value ls with
  | inr ls' => (true, ls')
  | inl thrown => (false, ls)
  end.

Definition safeRemoveItem (key : string) (ls : WebStorage)
  : bool * WebStorage :=
  match removeItem key ls with
  | inr ls' => (true, ls')
  | inl thrown => (false, ls)
  end.

(** The storage after an accepted [setItem(key, text)]. *)
Definition put (key text : string) (ls : WebStorage) : WebStorage :=
  mkWebStorage (<[key := text]> (items ls)) (denied ls) (refuses ls).

Section JSON.

(** [JSON.parse] ([None] when it throws) and [JSON.stringify] at the type
    of the stored value. *)
Context {T : Type}.
Variable JSON_parse : string → option T.
Variable JSON_stringify : T → string.

Definition safeGetJSON (key : string) (defaultValue : T) (ls : WebStorage)
  : T :=
  match getItem key ls with
  | inr (Some item) =>
      match JSON_parse item with
      | Some value => value
      | None => defaultValue
      end
  | inr None => defaultValue
  | inl thrown => defaultValue
  end.

Definition safeSetJSON (key : string) (value : T) (ls : WebStorage)
  : bool * WebStorage :=
  match setItem key (JSON_stringify value) ls with
  | inr ls' => (true, ls')
  | inl thrown => (false, ls)
  end.

End JSON.

End SafeStorage.

Module RecentGroups.
Import PasswordPrompt SafeStorage.

Record RecentGroup := mkRecentGroup {
  id : string;
  name : string;
}.

Definition STORAGE_KEY : string := "recentGroups".
Definition STARRED_GROUPS_STORAGE_KEY : string := "starredGroups".
Definition ARCHIVED_GROUPS_STORAGE_KEY : string := "archivedGroups".

Definition DEFAULT_RECENT_GROUPS_LIMIT : nat := 100.
Definition DEFAULT_STARRED_GROUPS_LIMIT : nat := 50.
Definition DEFAULT_ARCHIVED_GROUPS_LIMIT : nat := 50.

(** The [limit] argument: a count (the callers pass none or [Infinity]; the
    defaults are counts), or [Infinity]. *)
Inductive Limit := Infinity | AtMost (n : nat).

(** [groups.slice(0, limit)] *)
Definition slice {A} (limit : Limit) (l : list A) : list A :=
  match limit with
  | Infinity => l
  | AtMost n => take n l
  end.

(** [z.string().min(1)] on the [id] of every element. *)
Definition nonempty_ids (groups : list RecentGroup) : bool :=
  forallb (λ g, negb (String.eqb (id g) "")) groups.

Section Lists.

(** The values that [JSON.parse] yields and [JSON.stringify] takes.
    [of_groups] and [of_ids] are the arrays that the code builds;
    [as_groups] and [as_ids] read a value as an array of objects with a
    string [id] and a string [name], and as an array of strings, the shapes
    that the schemas ask for ([None] for any other value). *)
Context {Json : Type}.
Variable JSON_parse : string → option Json.
Variable JSON_stringify : Json → string.
Variable empty_array : Json.
Variable of_groups : list RecentGroup → Json.
Variable as_groups : Json → option (list RecentGroup).
Variable of_ids : list string → Json.
Variable as_ids : Json → option (list string).

(** [recentGroupsSchema.safeParse]: [Some data] on success. *)
Definition recentGroupsSchema (raw : Json) : option (list RecentGroup) :=
  match as_groups raw with
  | Some groups => if nonempty_ids groups then Some groups else None
  | None => None
  end.

Definition starredGroupsSchema (raw : Json) : option (list string) :=
  as_ids raw.

Definition archivedGroupsSchema (raw : Json) : option (list string) :=
  as_ids raw.

Definition getRecentGroups (limit : Limit) (ls : WebStorage)
  : list RecentGroup :=
  let groupsInStorageRaw := safeGetJSON JSON_parse STORAGE_KEY empty_array ls in
  let groups :=
    match recentGroupsSchema groupsInStorageRaw with
    | Some data => data
    | None => []
    end in
  slice limit groups.

Definition saveRecentGroup (group : RecentGroup) (ls : WebStorage)
  : WebStorage :=
  let recentGroups := getRecentGroups Infinity ls in
  (safeSetJSON JSON_stringify STORAGE_KEY
     (of_groups (group :: filter (λ rg, id rg ≠ id group) recentGroups))
     ls).2.

Definition deleteRecentGroup (group : RecentGroup) (ls : WebStorage)
  : WebStorage :=
  let recentGroups := getRecentGroups Infinity ls in
  (safeSetJSON JSON_stringify STORAGE_KEY
     (of_groups (filter (λ rg, id rg ≠ id group) recentGroups)) ls).2.

Definition getStarredGroups (limit : Limit) (ls : WebStorage) : list string :=
  let starredGroupsRaw :=
    safeGetJSON JSON_parse STARRED_GROUPS_STORAGE_KEY empty_array ls in
  let groups :=
    match starredGroupsSchema starredGroupsRaw with
    | Some data => data
    | None => []
    end in
  slice limit groups.

Definition starGroup (groupId : string) (ls : WebStorage) : WebStorage :=
  let starredGroups := getStarredGroups Infinity ls in
  (safeSetJSON JSON_stringify STARRED_GROUPS_STORAGE_KEY
     (of_ids (starredGroups ++ [groupId])) ls).2.

Definition unstarGroup (groupId : string) (ls : WebStorage) : WebStorage :=
  let starredGroups := getStarredGroups Infinity ls in
  (safeSetJSON JSON_stringify STARRED_GROUPS_STORAGE_KEY
     (of_ids (filter (λ g, g ≠ groupId) starredGroups)) ls).2.

Definition getArchivedGroups (limit : Limit) (ls : WebStorage) : list string :=
  let archivedGroupsRaw :=
    safeGetJSON JSON_parse ARCHIVED_GROUPS_STORAGE_KEY empty_array ls in
  let groups :=
    match archivedGroupsSchema archivedGroupsRaw with
    | Some data => data
    | None => []
    end in
  slice limit groups.

Definition archiveGroup (groupId : string) (ls : WebStorage) : WebStorage :=
  let archivedGroups := getArchivedGroups Infinity ls in
  (safeSetJSON JSON_stringify ARCHIVED_GROUPS_STORAGE_KEY
     (of_ids (archivedGroups ++ [groupId])) ls).2.

Definition unarchiveGroup (groupId : string) (ls : WebStorage) : WebStorage :=
  let archivedGroups := getArchivedGroups Infinity ls in
  (safeSetJSON JSON_stringify ARCHIVED_GROUPS_STORAGE_KEY
     (of_ids (filter (λ g, g ≠ groupId) archivedGroups)) ls).2.

(** The written value comes back from [JSON.parse] in the shape in which
    it went into [JSON.stringify]. *)
Definition groups_round_trip (groups : list RecentGroup) : Prop :=
  JSON_parse (JSON_stringify (of_groups groups)) ≫= as_groups = Some groups.

Definition ids_round_trip (ids : list string) : Prop :=
  JSON_parse (JSON_stringify (of_ids ids)) ≫= as_ids = Some ids.

End Lists.

End RecentGroups.

(** ** More concrete inputs *)

Module MoreSamples.
Import Samples.

(** A database-backed module with a reachable table holding one locked
    row. *)
Definition database_with_locked_row : RateLimit.State :=
  RateLimit.mkState (Some RateLimit.TheDatabaseStorage)
    (Some (RateLimit.mkDatabase (Some true))) None
    (Some {[ "test@example.com" :=
               RateLimit.mkDbRecord 5 0 (Some 1804000) 4000 ]}).

(** A module configured [database] whose first asynchronous call found no
    table, and whose table, with a locked row, can be reached since. *)
Definition database_back_after_failed_probe : RateLimit.State :=
  RateLimit.set_prisma
    (Some {[ "test@example.com" :=
               RateLimit.mkDbRecord 5 0 (Some 1804000) 4000 ]})
    (RateLimit.checkRateLimitAsync ascii_toLowerCase RateLimit.database
       testEmail 0 (RateLimit.initial None)).2.

(** An initialised in-memory module with two failures on record. *)
Definition memory_after_two_failures : RateLimit.State :=
  (RateLimit.recordFailures ascii_toLowerCase RateLimit.memory testEmail
     [1000; 2000]
     (RateLimit.checkRateLimitAsync ascii_toLowerCase RateLimit.memory
        testEmail 0 (RateLimit.initial None)).2).2.

(** A toy codec for the persisted lockout state that knows one state
    only. *)
Definition stored_state : PasswordPrompt.RateLimitState :=
  PasswordPrompt.mkRateLimitState [1000; 2000; 70000] (Some 400000).

Definition toy_stringify (_ : PasswordPrompt.RateLimitState) : string :=
  "{attempts:[1000,2000,70000],lockedUntil:400000}".

Definition toy_parse (text : string) : option PasswordPrompt.RateLimitState :=
  if String.eqb text "{attempts:[1000,2000,70000],lockedUntil:400000}"
  then Some stored_state else None.

(** A rendering of the persisted lockout state that tells the states
    apart. *)
Definition show_state (state : PasswordPrompt.RateLimitState) : string :=
  "{attempts:["
  +:+ String.concat ","
        (map (λ t, Trpc.show_number (Some t))
           (PasswordPrompt.rl_attempts state))
  +:+ "],lockedUntil:"
  +:+ match PasswordPrompt.rl_lockedUntil state with
      | Some l => Trpc.show_number (Some l)
      | None => "null"
      end
  +:+ "}".

Definition working_browser : PasswordPrompt.Browser :=
  PasswordPrompt.mkBrowser empty_storage empty_storage.

(** Five guesses, one second apart. *)
Definition five_guesses : list (string * PasswordPrompt.Clock) :=
  [("guess 1", clock_at 1000); ("guess 2", clock_at 2000);
   ("guess 3", clock_at 3000); ("guess 4", clock_at 4000);
   ("guess 5", clock_at 5000)].

(** A small value language and codec for the lists kept in local storage:
    an array of rows of strings, rows separated by [;], fields by [,]. *)
Definition ToyJson : Type := list (list string).

Fixpoint split_on (sep : Ascii.ascii) (s : string) : list string :=
  match s with
  | EmptyString => [EmptyString]
  | String c rest =>
      if Ascii.eqb c sep then EmptyString :: split_on sep rest
      else match split_on sep rest with
           | h :: t => String c h :: t
           | [] => [String c EmptyString]
           end
  end.

Definition semicolon : Ascii.ascii :=
  Ascii.Ascii true true false true true true false false.
Definition comma : Ascii.ascii :=
  Ascii.Ascii false false true true false true false false.

Definition toy_json_stringify (j : ToyJson) : string :=
  String.concat ";" (map (String.concat ",") j).

Definition toy_json_parse (text : string) : option ToyJson :=
  if String.eqb text "broken" then None
  else if String.eqb text EmptyString then Some []
  else Some (map (split_on comma) (split_on semicolon text)).

Definition toy_of_groups (groups : list RecentGroups.RecentGroup) : ToyJson :=
  map (λ g, [RecentGroups.id g; RecentGroups.name g]) groups.

Definition toy_as_groups (j : ToyJson)
  : option (list RecentGroups.RecentGroup) :=
  mapM (λ row, match row with
               | [i; n] => Some (RecentGroups.mkRecentGroup i n)
               | _ => None
               end) j.

Definition toy_of_ids (ids : list string) : ToyJson :=
  map (λ i, [i]) ids.

Definition toy_as_ids (j : ToyJson) : option (list string) :=
  mapM (λ row, match row with [i] => Some i | _ => None end) j.

Definition trip : RecentGroups.RecentGroup :=
  RecentGroups.mkRecentGroup "g1" "Trip".
Definition flat : RecentGroups.RecentGroup :=
  RecentGroups.mkRecentGroup "g2" "Flat".
Definition trip_renamed : RecentGroups.RecentGroup :=
  RecentGroups.mkRecentGroup "g1" "Holidays".
Definition nameless : RecentGroups.RecentGroup :=
  RecentGroups.mkRecentGroup EmptyString "Draft".

(** Local storage that lists two recent groups and the starred group
    [g2]. *)
Definition storage_with_groups : PasswordPrompt.WebStorage :=
  PasswordPrompt.mkWebStorage
    {[ "recentGroups" := "g2,Flat;g1,Trip"; "starredGroups" := "g2" ]}
    false (λ _ _, false).

(** Local storage that is full: it can be read, and refuses every write. *)
Definition full_storage : PasswordPrompt.WebStorage :=
  PasswordPrompt.mkWebStorage
    {[ "recentGroups" := "g2,Flat;g1,Trip"; "starredGroups" := "g2" ]}
    false (λ _ _, true).

(** Local storage whose list of recent groups is not JSON. *)
Definition storage_with_broken_list : PasswordPrompt.WebStorage :=
  PasswordPrompt.mkWebStorage {[ "recentGroups" := "broken" ]}
    false (λ _ _, false).

End MoreSamples.

(** * Properties of the server-side rate limiter *)

Module RateLimitFacts.
Import RateLimit.

Ltac unfold_monad :=
  unfold bind, ret, get_state, modify in *; simpl in *.

Section Sync.

Variable toLowerCase : string → string.
Variable STORAGE_TYPE : StorageType.

Lemma getStorageSync_memory s :
  storage s ≠ Some TheDatabaseStorage →
  ∃ s', getStorageSync s = (TheMemoryStorage, s')
        ∧ storage s' = storage s
        ∧ attempts_of s' = attempts_of s
        ∧ prisma s' = prisma s.
Proof.
  intros Hmem. unfold getStorageSync. unfold_monad.
  destruct (storage s) as [[]|] eqn:Hst; try congruence.
  - eexists; split; [reflexivity|]. auto.
  - destruct (memoryStorage s) eqn:Hm.
    + eexists; split; [reflexivity|]. auto.
    + eexists; split; [reflexivity|]. simpl.
      unfold attempts_of. rewrite Hm. auto.
Qed.

Lemma getStorageSync_database s :
  storage s = Some TheDatabaseStorage →
  getStorageSync s = (TheDatabaseStorage, s).
Proof. intros Hdb. unfold getStorageSync. unfold_monad. by rewrite Hdb. Qed.

Lemma recordFailedAttempt_memory email now s :
  storage s ≠ Some TheDatabaseStorage →
  let key := toLowerCase email in
  let s' := (recordFailedAttempt toLowerCase STORAGE_TYPE email now s).2 in
  storage s' = storage s
  ∧ attempts_of s' =
      <[key := recorded now (attempts_of s !! key)]> (attempts_of s).
Proof.
  intros Hmem key s'. subst s'. unfold recordFailedAttempt.
  destruct (getStorageSync_memory s Hmem) as (s0 & Hget & Hst & Hatt & _).
  unfold bind. rewrite Hget. unfold get_state. fold key. rewrite Hatt.
  unfold recorded, attempts_set, bind, get_state, modify.
  destruct (attempts_of s !! key) as [record|]; simpl.
  - destruct (now - firstAttempt record >? WINDOW_MS); simpl;
      rewrite Hatt; auto.
  - rewrite Hatt; auto.
Qed.

Lemma checkRateLimit_memory email now s :
  storage s ≠ Some TheDatabaseStorage →
  (checkRateLimit toLowerCase email now s).1
  = verdict now (attempts_of s !! toLowerCase email).
Proof.
  intros Hmem. unfold checkRateLimit.
  destruct (getStorageSync_memory s Hmem) as (s0 & Hget & Hst & Hatt & _).
  unfold bind. rewrite Hget. unfold checkRateLimitSync, bind, get_state.
  rewrite Hatt. unfold verdict.
  destruct (attempts_of s !! toLowerCase email) as [record|]; [|done].
  destruct (active_lock now record); [done|].
  destruct (now - firstAttempt record >? WINDOW_MS); [done|].
  destruct (count record >=? MAX_ATTEMPTS); done.
Qed.

Lemma recordFailures_cons email now rest s :
  recordFailures toLowerCase STORAGE_TYPE email (now :: rest) s
  = recordFailures toLowerCase STORAGE_TYPE email rest
      (recordFailedAttempt toLowerCase STORAGE_TYPE email now s).2.
Proof.
  simpl. unfold bind.
  by destruct (recordFailedAttempt toLowerCase STORAGE_TYPE email now s).
Qed.

(** Failures recorded inside the window of an unlocked record count up, and
    the one that reaches [MAX_ATTEMPTS] sets the lock from its own clock
    reading. *)
Lemma recordFailures_reach_limit email times : ∀ s c t0 tl,
  storage s ≠ Some TheDatabaseStorage →
  attempts_of s !! toLowerCase email = Some (mkAttempt c t0 None) →
  c + Z.of_nat (length times) = MAX_ATTEMPTS →
  last times = Some tl →
  Forall (λ t, t - t0 ≤ WINDOW_MS) times →
  let s' := (recordFailures toLowerCase STORAGE_TYPE email times s).2 in
  storage s' ≠ Some TheDatabaseStorage
  ∧ attempts_of s' !! toLowerCase email
    = Some (mkAttempt MAX_ATTEMPTS t0 (Some (tl + LOCKOUT_MS))).
Proof.
  induction times as [|t rest IH]; intros s c t0 tl Hmem Hrec Hlen Hlast Hwin.
  - discriminate.
  - rewrite recordFailures_cons.
    destruct (recordFailedAttempt_memory email t s Hmem) as [Hst Hatt].
    set (s1 := (recordFailedAttempt toLowerCase STORAGE_TYPE email t s).2) in *.
    assert (Hmem1 : storage s1 ≠ Some TheDatabaseStorage) by (by rewrite Hst).
    apply Forall_cons in Hwin as [Hin Hwin].
    rewrite Hrec in Hatt. simpl in Hatt.
    destruct (t - t0 >? WINDOW_MS) eqn:Hgt; [lia|].
    destruct rest as [|t' rest'].
    + simpl in Hlen, Hlast. injection Hlast as <-.
      simpl. split; [done|]. rewrite Hatt, lookup_insert_eq.
      unfold bump. simpl. replace (c + 1) with MAX_ATTEMPTS by lia. done.
    + eapply (IH s1 (c + 1) t0 tl); try done.
      * rewrite Hatt, lookup_insert_eq. unfold bump. simpl.
        destruct (c + 1 >=? MAX_ATTEMPTS) eqn:Hge; [|done].
        simpl in Hlen. lia.
      * simpl in Hlen |- *. lia.
Qed.

Lemma ceil_div_lockout_window d :
  0 ≤ d ≤ 1000 →
  Z.abs (ceil_div (LOCKOUT_MS - d) 1000 - LOCKOUT_MS / 1000) ≤ 1.
Proof.
  intros Hd. unfold ceil_div, LOCKOUT_MS.
  change (30 * 60 * 1000 / 1000) with 1800.
  assert (-1800 ≤ - (30 * 60 * 1000 - d) / 1000 ≤ -1799).
  { split.
    - apply Z.div_le_lower_bound; lia.
    - apply Z.lt_succ_r, Z.div_lt_upper_bound; lia. }
  lia.
Qed.

(** C1, as amended. While the database storage is not the backend (the
    synchronous procedures then work on the in-memory storage), starting
    from a key without a record, [MAX_ATTEMPTS] failures recorded within
    one window lock the key until the last failure's clock reading plus
    [LOCKOUT_MS]; a check made while that lock holds is limited with
    [retryAfter = ceil((lockedUntil - now) / 1000)], which is within one
    second of the lockout duration when the check comes at most a second
    after the last failure. *)
Theorem lockout_after_max_attempts email t0 rest tl now s :
  storage s ≠ Some TheDatabaseStorage →
  attempts_of s !! toLowerCase email = None →
  Z.of_nat (length (t0 :: rest)) = MAX_ATTEMPTS →
  last (t0 :: rest) = Some tl →
  Forall (λ t, t - t0 ≤ WINDOW_MS) (t0 :: rest) →
  0 ≤ tl →
  now < tl + LOCKOUT_MS →
  let s' := (recordFailures toLowerCase STORAGE_TYPE email (t0 :: rest) s).2 in
  let r := (checkRateLimit toLowerCase email now s').1 in
  r = limited (ceil_div (tl + LOCKOUT_MS - now) 1000)
  ∧ (tl ≤ now ≤ tl + 1000 →
     ∃ seconds, retryAfter r = Some seconds
                ∧ Z.abs (seconds - LOCKOUT_MS / 1000) ≤ 1).
Proof.
  intros Hmem Hnone Hlen Hlast Hwin Htl Hnow s' r. subst r s'.
  rewrite recordFailures_cons.
  destruct (recordFailedAttempt_memory email t0 s Hmem) as [Hst Hatt].
  set (s1 := (recordFailedAttempt toLowerCase STORAGE_TYPE email t0 s).2) in *.
  rewrite Hnone in Hatt. simpl in Hatt.
  assert (Hmem1 : storage s1 ≠ Some TheDatabaseStorage) by (by rewrite Hst).
  destruct rest as [|t1 rest1]; [simpl in Hlen; unfold MAX_ATTEMPTS in Hlen; lia|].
  destruct (recordFailures_reach_limit email (t1 :: rest1) s1 1 t0 tl)
    as [Hmem2 Hrec]; try done.
  - by rewrite Hatt, lookup_insert_eq.
  - simpl in Hlen |- *. lia.
  - by apply Forall_cons in Hwin as [_ Hwin].
  - rewrite checkRateLimit_memory by done. rewrite Hrec. simpl.
    unfold active_lock. simpl.
    assert (Hnz : (tl + LOCKOUT_MS =? 0) = false)
      by (apply Z.eqb_neq; unfold LOCKOUT_MS; lia).
    assert (Hlt : (now <? tl + LOCKOUT_MS) = true) by (by apply Z.ltb_lt).
    rewrite Hnz, Hlt. simpl. split; [done|].
    intros Hclose. eexists; split; [reflexivity|].
    replace (tl + LOCKOUT_MS - now) with (LOCKOUT_MS - (now - tl)) by lia.
    apply ceil_div_lockout_window. lia.
Qed.

Lemma checkRateLimit_database email now s :
  storage s = Some TheDatabaseStorage →
  checkRateLimit toLowerCase email now s = (not_limited MAX_ATTEMPTS, s).
Proof.
  intros Hdb. unfold checkRateLimit, bind.
  by rewrite getStorageSync_database.
Qed.

(** C9. While the database storage is the active backend, the synchronous
    check is never limited and reports all [MAX_ATTEMPTS] attempts as
    remaining, whatever has been recorded in memory or in the table; it
    leaves the state as it found it. *)
Theorem checkRateLimit_database_never_limited email now s :
  storage s = Some TheDatabaseStorage →
  isLimited (checkRateLimit toLowerCase email now s).1 = false
  ∧ remainingAttempts (checkRateLimit toLowerCase email now s).1
    = Some MAX_ATTEMPTS
  ∧ checkRateLimit toLowerCase email now s = (not_limited MAX_ATTEMPTS, s).
Proof. intros Hdb. by rewrite checkRateLimit_database. Qed.

Lemma clearAttempts_memory email s :
  storage s ≠ Some TheDatabaseStorage →
  let s' := (clearAttempts toLowerCase STORAGE_TYPE email s).2 in
  storage s' = storage s
  ∧ attempts_of s' = delete (toLowerCase email) (attempts_of s).
Proof.
  intros Hmem s'. subst s'. unfold clearAttempts.
  destruct (getStorageSync_memory s Hmem) as (s0 & Hget & Hst & Hatt & _).
  unfold bind. rewrite Hget.
  unfold attempts_delete, bind, get_state, modify. simpl.
  by rewrite Hatt.
Qed.

Lemma clearAttempts_database email s :
  storage s = Some TheDatabaseStorage →
  storage (clearAttempts toLowerCase STORAGE_TYPE email s).2
  = Some TheDatabaseStorage.
Proof.
  intros Hdb. unfold clearAttempts, bind.
  rewrite getStorageSync_database by done.
  unfold clearAttemptsAsync, getStorage, bind, get_state. rewrite Hdb.
  unfold ret, store_delete, db_delete, checkTableExists, bind, get_state,
    ret, modify.
  destruct s as [st d m p]; simpl in *.
  destruct d as [[[[]|]]|]; destruct p; simpl; done.
Qed.

(** The asynchronous pair behaves alike, on a table that is either
    reachable or unreachable for both calls. *)
Lemma clearAsync_then_checkAsync_allows email now s :
  (checkRateLimitAsync toLowerCase STORAGE_TYPE email now
     (clearAttemptsAsync toLowerCase STORAGE_TYPE email s).2).1
  = not_limited MAX_ATTEMPTS.
Proof.
  unfold checkRateLimitAsync, clearAttemptsAsync, getStorage, store_delete,
    store_get, db_delete, db_get, checkTableExists, checkDatabaseAvailable,
    bind, get_state, ret, modify.
  destruct s as [st d m p]; simpl.
  destruct st as [[]|]; simpl.
  - unfold attempts_of; simpl. by rewrite lookup_delete_eq.
  - destruct d as [[[[]|]]|]; destruct p; simpl;
      rewrite ?lookup_delete_eq; done.
  - destruct STORAGE_TYPE; simpl.
    + unfold attempts_of; simpl. by rewrite lookup_delete_eq.
    + destruct p; simpl; rewrite ?lookup_delete_eq; done.
    + destruct p; simpl; rewrite ?lookup_delete_eq; try done.
      destruct (of_db <$> g !! "__test__"); simpl;
        rewrite ?lookup_delete_eq; done.
Qed.

(** C6. Whatever the module state (no record, a counted window, a locked
    one; memory or database backend), [clearAttempts] followed by
    [checkRateLimit] for the same identity is not limited and reports
    [MAX_ATTEMPTS] remaining attempts. *)
Theorem clear_then_check_allows email now s :
  (checkRateLimit toLowerCase email now
     (clearAttempts toLowerCase STORAGE_TYPE email s).2).1
  = not_limited MAX_ATTEMPTS.
Proof.
  assert (storage s = Some TheDatabaseStorage
          ∨ storage s ≠ Some TheDatabaseStorage) as [Hdb|Hmem]
    by (destruct (storage s) as [[]|]; auto).
  - rewrite checkRateLimit_database; [done|].
    by apply clearAttempts_database.
  - destruct (clearAttempts_memory email s Hmem) as [Hst Hatt].
    rewrite checkRateLimit_memory by (by rewrite Hst).
    by rewrite Hatt, lookup_delete_eq.
Qed.

(** On an initialised in-memory backend the asynchronous procedures do what
    the synchronous ones do. *)
Lemma async_agrees_with_sync_on_memory email now s :
  storage s = Some TheMemoryStorage →
  checkRateLimitAsync toLowerCase STORAGE_TYPE email now s
  = checkRateLimit toLowerCase email now s
  ∧ recordFailedAttemptAsync toLowerCase STORAGE_TYPE email now s
    = recordFailedAttempt toLowerCase STORAGE_TYPE email now s
  ∧ clearAttemptsAsync toLowerCase STORAGE_TYPE email s
    = clearAttempts toLowerCase STORAGE_TYPE email s.
Proof.
  intros Hmem.
  unfold checkRateLimitAsync, checkRateLimit, recordFailedAttemptAsync,
    recordFailedAttempt, clearAttemptsAsync, clearAttempts, getStorage,
    getStorageSync, checkRateLimitSync, store_get, store_set, store_delete,
    attempts_set, attempts_delete, bind, get_state, ret, modify.
  rewrite Hmem.
  repeat split;
    destruct (attempts_of s !! toLowerCase email) as [record|]; try done;
    try destruct (active_lock now record); try done;
    destruct (now - firstAttempt record >? WINDOW_MS); try done;
    destruct (count record >=? MAX_ATTEMPTS); done.
Qed.

End Sync.

(** *** Fallback of the [auto] configuration *)

Section Fallback.

Variable toLowerCase : string → string.

Ltac unfold_api :=
  unfold call, checkRateLimit, checkRateLimitAsync, recordFailedAttempt,
    recordFailedAttemptAsync, clearAttempts, clearAttemptsAsync, cleanupTick,
    checkRateLimitSync, getStorageSync, getStorage, store_get, store_set,
    store_delete, attempts_set, attempts_delete, db_get, db_set, db_delete,
    checkTableExists, checkDatabaseAvailable, attempts_of,
    bind, get_state, ret, modify.

Ltac crunch := cbn -[insert lookup delete filter fmap mem_cleanup].

Lemma call_fallback_related c s1 s2 :
  fallback_related s1 s2 →
  (call toLowerCase auto c s1).1 = (call toLowerCase memory c s2).1
  ∧ fallback_related (call toLowerCase auto c s1).2
                     (call toLowerCase memory c s2).2.
Proof.
  destruct s1 as [st1 d1 m1 p1], s2 as [st2 d2 m2 p2].
  unfold fallback_related; simpl. intros (-> & -> & Hne & ->).
  destruct st2 as [[]|]; [|congruence|];
    destruct c; unfold_api; crunch;
    try (destruct m2 as [m2|]; crunch);
    repeat (case_match; crunch);
    cbn -[insert lookup delete filter fmap mem_cleanup] in *;
    simplify_eq; auto.
Qed.

Lemma run_fallback_related calls : ∀ s1 s2,
  fallback_related s1 s2 →
  (run toLowerCase auto calls s1).1 = (run toLowerCase memory calls s2).1.
Proof.
  induction calls as [|c rest IH]; intros s1 s2 Hrel; [done|].
  destruct (call_fallback_related c s1 s2 Hrel) as [Hout Hnext].
  simpl. unfold bind, ret.
  destruct (call toLowerCase auto c s1) as [o1 s1'],
           (call toLowerCase memory c s2) as [o2 s2'].
  simpl in Hout, Hnext. subst o2.
  specialize (IH s1' s2' Hnext).
  destruct (run toLowerCase auto rest s1') as [os1 ?],
           (run toLowerCase memory rest s2') as [os2 ?].
  simpl in IH |- *. by subst.
Qed.

(** C7. For every sequence of synchronous and asynchronous check, record
    and clear calls (and timer ticks), a module configured [auto] whose
    table is unreachable returns the same results, call by call, as a module
    configured [memory], whatever the state of the database there. *)
Theorem auto_fallback_equals_memory calls table :
  (run toLowerCase auto calls (initial None)).1
  = (run toLowerCase memory calls (initial table)).1.
Proof.
  apply run_fallback_related.
  unfold fallback_related, initial; simpl. auto.
Qed.

(** [getStorageType] is not part of that equivalence: until the first
    asynchronous call initialises [storage] it answers with the configured
    type.  Afterwards both modules answer ['memory']. *)
Remark getStorageType_tells_the_configurations_apart table email now :
  getStorageType auto (initial None) = auto
  ∧ getStorageType memory (initial table) = memory
  ∧ getStorageType auto
      (checkRateLimitAsync toLowerCase auto email now (initial None)).2
    = memory
  ∧ getStorageType memory
      (checkRateLimitAsync toLowerCase memory email now (initial table)).2
    = memory.
Proof. repeat split; reflexivity. Qed.

End Fallback.

(** *** The lock and the recording of failures *)

Section Lock.

Variable toLowerCase : string → string.
Variable STORAGE_TYPE : StorageType.

(** While a lock is active the synchronous check is limited, whatever the
    count, and leaves the record as it is. *)
Lemma checkRateLimit_while_locked email now s record l :
  storage s ≠ Some TheDatabaseStorage →
  attempts_of s !! toLowerCase email = Some record →
  active_lock now record = Some l →
  (checkRateLimit toLowerCase email now s).1
  = limited (ceil_div (l - now) 1000)
  ∧ attempts_of (checkRateLimit toLowerCase email now s).2
    = attempts_of s.
Proof.
  intros Hmem Hrec Hlock. split.
  - rewrite checkRateLimit_memory by done. rewrite Hrec. simpl.
    by rewrite Hlock.
  - unfold checkRateLimit.
    destruct (getStorageSync_memory s Hmem) as (s0 & Hget & _ & Hatt & _).
    unfold bind. rewrite Hget. unfold checkRateLimitSync, bind, get_state.
    by rewrite Hatt, Hrec, Hlock.
Qed.

(** A failure recorded inside the window of a locked record keeps it locked:
    the lock is set again from the later clock reading. *)
Lemma recordFailedAttempt_in_window_keeps_lock email now s record :
  storage s ≠ Some TheDatabaseStorage →
  attempts_of s !! toLowerCase email = Some record →
  now - firstAttempt record ≤ WINDOW_MS →
  MAX_ATTEMPTS ≤ count record + 1 →
  attempts_of (recordFailedAttempt toLowerCase STORAGE_TYPE email now s).2
    !! toLowerCase email
  = Some (mkAttempt (count record + 1) (firstAttempt record)
            (Some (now + LOCKOUT_MS))).
Proof.
  intros Hmem Hrec Hwin Hcount.
  destruct (recordFailedAttempt_memory toLowerCase STORAGE_TYPE email now s
              Hmem) as [_ ->].
  rewrite lookup_insert_eq, Hrec. simpl.
  destruct (now - firstAttempt record >? WINDOW_MS) eqn:Hgt; [lia|].
  unfold bump.
  destruct (count record + 1 >=? MAX_ATTEMPTS) eqn:Hge; [done|lia].
Qed.

(** A failure recorded after the window of the record has lapsed starts a
    fresh window, whether or not the record is locked. *)
Lemma recordFailedAttempt_after_window_starts_afresh email now s record :
  storage s ≠ Some TheDatabaseStorage →
  attempts_of s !! toLowerCase email = Some record →
  WINDOW_MS < now - firstAttempt record →
  attempts_of (recordFailedAttempt toLowerCase STORAGE_TYPE email now s).2
    !! toLowerCase email
  = Some (fresh now).
Proof.
  intros Hmem Hrec Hwin.
  destruct (recordFailedAttempt_memory toLowerCase STORAGE_TYPE email now s
              Hmem) as [_ ->].
  rewrite lookup_insert_eq, Hrec. simpl.
  destruct (now - firstAttempt record >? WINDOW_MS) eqn:Hgt; [done|lia].
Qed.

End Lock.

(** *** The tests of rate-limit.test.ts, replayed *)

Import Samples.
Local Abbreviation lower := ascii_toLowerCase.

Example should_allow_first_attempt :
  (checkRateLimit lower testEmail 1000 (initial None)).1 = not_limited 5.
Proof. vm_compute. reflexivity. Qed.

Example should_track_remaining_attempts :
  (checkRateLimit lower testEmail 1001
     (recordFailedAttempt lower memory testEmail 1000 (initial None)).2).1
  = not_limited 4.
Proof. vm_compute. reflexivity. Qed.

Example should_be_case_insensitive :
  (checkRateLimit lower "test@example.com" 1001
     (recordFailedAttempt lower memory "TEST@EXAMPLE.COM" 1000
        (initial None)).2).1
  = not_limited 4.
Proof. vm_compute. reflexivity. Qed.

Example should_limit_after_max_attempts :
  (checkRateLimit lower testEmail 1005
     (recordFailures lower memory testEmail [1000; 1001; 1002; 1003; 1004]
        (initial None)).2).1
  = limited 1800.
Proof. vm_compute. reflexivity. Qed.

(** C1 as amended, on the identity of the tests: five failures from 1000
    to 1004, a check at 1500. *)
Lemma lockout_after_max_attempts_witness :
  let s' := (recordFailures lower memory testEmail
               [1000; 1001; 1002; 1003; 1004] (initial None)).2 in
  let r := (checkRateLimit lower testEmail 1500 s').1 in
  r = limited (ceil_div (1004 + LOCKOUT_MS - 1500) 1000)
  ∧ (1004 ≤ 1500 ≤ 1004 + 1000 →
     ∃ seconds, retryAfter r = Some seconds
                ∧ Z.abs (seconds - LOCKOUT_MS / 1000) ≤ 1).
Proof.
  apply (lockout_after_max_attempts lower memory testEmail
           1000 [1001; 1002; 1003; 1004] 1004 1500 (initial None)).
  - discriminate.
  - reflexivity.
  - reflexivity.
  - reflexivity.
  - repeat constructor; vm_compute; discriminate.
  - lia.
  - vm_compute. reflexivity.
Defined.

(** C1 as stated fails on the database backend.  The module has selected
    the database storage, the table is reachable and empty, and the
    identity has no record anywhere.  Five failures recorded a millisecond
    apart reach the table, where the asynchronous check finds the lock;
    the synchronous check, which returns before it looks at a storage
    other than the in-memory one, is not limited and reports no
    [retryAfter]. *)
Lemma database_backend_reports_no_lockout :
  let s := (getStorage database (initial (Some ∅))).2 in
  let s' := (recordFailures lower database testEmail
               [1000; 1001; 1002; 1003; 1004] s).2 in
  storage s = Some TheDatabaseStorage
  ∧ attempts_of s !! lower testEmail = None
  ∧ prisma s = Some ∅
  ∧ (checkRateLimitAsync lower database testEmail 1005 s').1 = limited 1800
  ∧ (checkRateLimit lower testEmail 1005 s').1 = not_limited MAX_ATTEMPTS
  ∧ isLimited (checkRateLimit lower testEmail 1005 s').1 = false
  ∧ retryAfter (checkRateLimit lower testEmail 1005 s').1 = None.
Proof. vm_compute. repeat split; reflexivity. Qed.

(** C9 on a database-backed module whose table holds a locked record: the
    asynchronous check is limited, the synchronous one is not. *)
Lemma checkRateLimit_database_never_limited_witness :
  storage database_after_failures = Some TheDatabaseStorage
  ∧ (checkRateLimitAsync lower database testEmail 7
       database_after_failures).1 = limited 1800
  ∧ isLimited (checkRateLimit lower testEmail 7 database_after_failures).1
    = false
  ∧ remainingAttempts
      (checkRateLimit lower testEmail 7 database_after_failures).1
    = Some MAX_ATTEMPTS
  ∧ checkRateLimit lower testEmail 7 database_after_failures
    = (not_limited MAX_ATTEMPTS, database_after_failures).
Proof.
  split; [reflexivity|]. split; [vm_compute; reflexivity|].
  apply (checkRateLimit_database_never_limited lower testEmail 7
           database_after_failures).
  reflexivity.
Defined.

(** C2, at the failing input. Five failures between 0 and 4000 lock the key
    until 1804000, and a check at 900001 is limited.  A failure recorded at
    900001, after the window of the first attempt has lapsed and about
    fifteen minutes before the lock expires, replaces the locked record
    by a fresh unlocked one, and the next check allows four more
    attempts. *)
Theorem recordFailedAttempt_drops_active_lock :
  attempts_of locked_in_memory !! lower testEmail
  = Some (mkAttempt 5 0 (Some 1804000))
  ∧ (checkRateLimit lower testEmail 900001 locked_in_memory).1 = limited 904
  ∧ let s' := (recordFailedAttempt lower memory testEmail 900001
                 locked_in_memory).2 in
    attempts_of s' !! lower testEmail = Some (mkAttempt 1 900001 None)
    ∧ (checkRateLimit lower testEmail 900002 s').1 = not_limited 4.
Proof. vm_compute. repeat split; reflexivity. Qed.

End RateLimitFacts.

(** * Properties of the unlock form *)

Module PasswordPromptFacts.
Import PasswordPrompt.

Lemma ceil_div_positive a : 0 < a → 0 < ceil_div a 1000.
Proof.
  intros Ha. unfold ceil_div.
  assert (- a / 1000 < 0) by (apply Z.div_lt_upper_bound; lia). lia.
Qed.

Section Form.

Variable trim : string → string.
Variable base64ToKey : string → option Key.
Variable deriveKeyFromPassword : string → Key → Z → option Key.
Variable combineKeys : Key → Key → option Key.
Variable decrypt : string → Key → option string.
Variable keyToBase64 : Key → string.

Local Abbreviation handle :=
  (handleSubmit trim base64ToKey deriveKeyFromPassword combineKeys decrypt
     keyToBase64).
Local Abbreviation attempt :=
  (attemptUnlock base64ToKey deriveKeyFromPassword combineKeys decrypt
     keyToBase64).
Local Abbreviation derive := (deriveFinalKey base64ToKey deriveKeyFromPassword
                            combineKeys).

Lemma isRateLimited_lockedUntil now c :
  lockedUntil (isRateLimited now c).2 = lockedUntil c.
Proof. unfold isRateLimited. by destruct (locked_at now (lockedUntil c)). Qed.

(** A submission that finds the lockout state not allowing an attempt makes
    no call at all and leaves the browser storage alone. *)
Lemma limited_submission_is_inert p clock c b :
  (isRateLimited (now_check clock) c).1 = true →
  (handle p clock c b).1.2 = b ∧ (handle p clock c b).2 = [].
Proof.
  intros Hlim. unfold handleSubmit.
  destruct (bool_decide (trim (password c) = "")); [done|].
  destruct (isRateLimited (now_check clock) c) as [lim c1].
  simpl in Hlim. by subst lim.
Qed.

(** C4, as amended. A submission that finds the lockout state not allowing
    an attempt (an active lock, or the limit reached inside the window) stops
    without any call to key derivation, decryption or the continuation,
    whatever the password field holds; when the password is not blank, it
    shows the too-many-attempts error with a positive lockout countdown. *)
Theorem limited_submission_stops p clock c b :
  (isRateLimited (now_check clock) c).1 = true →
  0 ≤ now_lockout clock →
  (handle p clock c b).2 = []
  ∧ (handle p clock c b).1.2 = b
  ∧ (trim (password c) ≠ "" →
     surfaces_lockout (now_lockout clock) (handle p clock c b).1.1).
Proof.
  intros Hlim Hclock.
  destruct (limited_submission_is_inert p clock c b Hlim) as [Hb Htrace].
  split; [done|]. split; [done|].
  intros Hpw. unfold handleSubmit.
  rewrite bool_decide_eq_false_2 by done.
  pose proof (isRateLimited_lockedUntil (now_check clock) c) as Hkeep.
  destruct (isRateLimited (now_check clock) c) as [lim c1].
  simpl in Hlim, Hkeep. subst lim. simpl.
  unfold surfaces_lockout, remainingLockoutTime. simpl. split; [done|].
  destruct (lockedUntil c) as [l|] eqn:Hl; simpl.
  - destruct (l =? 0) eqn:Hz; simpl.
    + assert ((now_lockout clock + LOCKOUT_DURATION_MS =? 0) = false) as ->
        by (apply Z.eqb_neq; unfold LOCKOUT_DURATION_MS; lia).
      pose proof (ceil_div_positive
        (now_lockout clock + LOCKOUT_DURATION_MS - now_lockout clock)).
      unfold LOCKOUT_DURATION_MS in *. lia.
    + destruct (now_lockout clock >=? l) eqn:Hge; simpl.
      * assert ((now_lockout clock + LOCKOUT_DURATION_MS =? 0) = false) as ->
          by (apply Z.eqb_neq; unfold LOCKOUT_DURATION_MS; lia).
        pose proof (ceil_div_positive
          (now_lockout clock + LOCKOUT_DURATION_MS - now_lockout clock)).
        unfold LOCKOUT_DURATION_MS in *. lia.
      * rewrite Hkeep. rewrite Hz.
        pose proof (ceil_div_positive (l - now_lockout clock)). lia.
  - assert ((now_lockout clock + LOCKOUT_DURATION_MS =? 0) = false) as ->
      by (apply Z.eqb_neq; unfold LOCKOUT_DURATION_MS; lia).
    pose proof (ceil_div_positive
      (now_lockout clock + LOCKOUT_DURATION_MS - now_lockout clock)).
    unfold LOCKOUT_DURATION_MS in *. lia.
Qed.

Lemma verify_absent probe key :
  absent probe → verify decrypt probe key = (Verified key, []).
Proof. by intros [-> | ->]. Qed.

Lemma deriveFinalKey_never_decrypts p pw :
  Forall (λ e, is_decrypt e = false) (derive p pw).2.
Proof.
  unfold deriveFinalKey.
  repeat (case_match; simpl); repeat constructor.
Qed.

Lemma persistAndContinue_never_decrypts p passwordKey finalKey b :
  Forall (λ e, is_decrypt e = false)
    (persistAndContinue keyToBase64 p passwordKey finalKey b).2.
Proof.
  unfold persistAndContinue.
  repeat (case_match; simpl); repeat constructor.
Qed.

(** Without a probe no submission ever calls [decrypt], whatever the
    password, the lockout state and the state of the browser storage. *)
Lemma absent_probe_never_decrypts p clock c b :
  absent (encryptedGroupName p) →
  Forall (λ e, is_decrypt e = false) (handle p clock c b).2.
Proof.
  intros Habs. unfold handleSubmit.
  destruct (bool_decide (trim (password c) = "")); [constructor|].
  destruct (isRateLimited (now_check clock) c) as [[] c1]; [constructor|].
  unfold attemptUnlock.
  pose proof (deriveFinalKey_never_decrypts p (password c)) as Hd.
  destruct (derive p (password c)) as [[[passwordKey finalKey]|] trace];
    simpl in Hd; [|done].
  rewrite (verify_absent _ finalKey Habs).
  pose proof (persistAndContinue_never_decrypts p passwordKey finalKey b) as Hp.
  destruct (persistAndContinue keyToBase64 p passwordKey finalKey b)
    as [[[[]|] b2] trace_p]; simpl in Hp |- *;
    by apply Forall_app.
Qed.

(** When the group has no probe, the verification step accepts every
    candidate key and hands it on unchanged, and no submission calls
    [decrypt].  A submission that reaches the verification with the key
    [finalKey] then ends in [onSuccess finalKey], with no failed attempt
    recorded and no error shown, provided the session-scoped write and the
    continuation themselves do not throw. *)
Lemma absent_probe_always_verifies
    p clock c b passwordKey finalKey derivation :
  absent (encryptedGroupName p) →
  trim (password c) ≠ "" →
  (isRateLimited (now_check clock) c).1 = false →
  derive p (password c) = (Some (passwordKey, finalKey), derivation) →
  setItem (SESSION_PWD_KEY_PREFIX +:+ groupId p) (keyToBase64 passwordKey)
    (sessionStorage b) ≠ inl thrown →
  onSuccess p finalKey = true →
  (∀ key, verify decrypt (encryptedGroupName p) key = (Verified key, []))
  ∧ Forall (λ e, is_decrypt e = false) (handle p clock c b).2
  ∧ (handle p clock c b).2 = derivation ++ [EvOnSuccess finalKey]
  ∧ attempts (handle p clock c b).1.1 = recent (now_check clock) (attempts c)
  ∧ error (handle p clock c b).1.1 = None
  ∧ password (handle p clock c b).1.1 = password c.
Proof.
  intros Habs Hpw Hlim Hderive Hsession Hcont.
  split; [intros key; by apply verify_absent|].
  split; [by apply absent_probe_never_decrypts|].
  unfold handleSubmit. rewrite bool_decide_eq_false_2 by done.
  unfold isRateLimited in *.
  destruct (locked_at (now_check clock) (lockedUntil c)); [done|].
  simpl in Hlim. rewrite Hlim.
  unfold attemptUnlock. rewrite Hderive.
  rewrite (verify_absent _ finalKey Habs).
  unfold persistAndContinue.
  assert (Hss : ∀ b1 : Browser, sessionStorage b1 = sessionStorage b →
    ∃ ss, setItem (SESSION_PWD_KEY_PREFIX +:+ groupId p)
            (keyToBase64 passwordKey) (sessionStorage b1) = inr ss).
  { intros b1 ->.
    destruct (setItem (SESSION_PWD_KEY_PREFIX +:+ groupId p)
                (keyToBase64 passwordKey) (sessionStorage b)) as [[]|ss];
      [done|by exists ss]. }
  destruct (setItem (ENCRYPTION_KEY_PREFIX +:+ groupId p)
              (keyToBase64 finalKey) (localStorage b)) as [[]|ls].
  - destruct (Hss b eq_refl) as [ss ->]. rewrite Hcont. done.
  - destruct (Hss (mkBrowser ls (sessionStorage b)) eq_refl) as [ss ->].
    rewrite Hcont. done.
Qed.

(** Reads of a storage that throws yield no stored state, and writes to it
    are dropped. *)
Lemma loadRateLimitState_denied JSON_parse group b :
  denied (localStorage b) = true →
  loadRateLimitState JSON_parse group b = None.
Proof. intros Hd. unfold loadRateLimitState, getItem. by rewrite Hd. Qed.

Lemma saveRateLimitState_refused JSON_stringify group state b :
  setItem (getStorageKey group) (JSON_stringify state) (localStorage b)
  = inl thrown →
  saveRateLimitState JSON_stringify group state b = b.
Proof. intros Hs. unfold saveRateLimitState. by rewrite Hs. Qed.

(** What a submission does to the form and which calls it makes does not
    depend on the local storage, working or not. *)
Lemma handleSubmit_ignores_localStorage p clock c ls ls' ss :
  (handle p clock c (mkBrowser ls ss)).1.1
  = (handle p clock c (mkBrowser ls' ss)).1.1
  ∧ (handle p clock c (mkBrowser ls ss)).2
    = (handle p clock c (mkBrowser ls' ss)).2.
Proof.
  unfold handleSubmit.
  destruct (bool_decide (trim (password c) = "")); [done|].
  destruct (isRateLimited (now_check clock) c) as [[] c1]; [done|].
  unfold attemptUnlock.
  destruct (derive p (password c)) as [[[passwordKey finalKey]|] trace];
    [|done].
  destruct (verify decrypt (encryptedGroupName p) finalKey) as [[key|] trace_v];
    [|done].
  unfold persistAndContinue. cbn [localStorage sessionStorage].
  destruct (setItem (ENCRYPTION_KEY_PREFIX +:+ groupId p) (keyToBase64 key) ls)
    as [[]|],
    (setItem (ENCRYPTION_KEY_PREFIX +:+ groupId p) (keyToBase64 key) ls')
    as [[]|];
    cbn [localStorage sessionStorage];
    destruct (setItem (SESSION_PWD_KEY_PREFIX +:+ groupId p)
                (keyToBase64 passwordKey) ss) as [[]|]; try done;
    destruct (onSuccess p key); done.
Qed.

End Form.

(** *** Concrete submissions *)

Import Samples.

Local Abbreviation toy_handleSubmit :=
  (handleSubmit ascii_trim toy_base64ToKey toy_derive toy_combine toy_decrypt
     toy_keyToBase64).

(** C4 as amended, on a form with five recent failures and a password
    typed in. *)
Lemma limited_submission_stops_witness :
  let c := typed "hunter2" [1000; 2000; 3000; 4000; 5000] None in
  let b := mkBrowser empty_storage empty_storage in
  (toy_handleSubmit legacy_group (clock_at 6000) c b).2 = []
  ∧ (toy_handleSubmit legacy_group (clock_at 6000) c b).1.2 = b
  ∧ (ascii_trim (password c) ≠ "" →
     surfaces_lockout 6000
       (toy_handleSubmit legacy_group (clock_at 6000) c b).1.1).
Proof.
  apply (limited_submission_stops ascii_trim toy_base64ToKey toy_derive
           toy_combine toy_decrypt toy_keyToBase64 legacy_group
           (clock_at 6000)
           (typed "hunter2" [1000; 2000; 3000; 4000; 5000] None)
           (mkBrowser empty_storage empty_storage)).
  - reflexivity.
  - simpl. lia.
Defined.

(** C4 as stated fails on a blank password. With five recent failures and
    no lock yet, the lockout state does not allow an attempt; a submission
    whose password field holds only blanks
    is answered by the empty-password error, starts no lockout and shows no
    countdown. *)
Lemma blank_submission_shows_no_lockout :
  let c := typed "  " [1000; 2000; 3000; 4000; 5000] None in
  let b := mkBrowser empty_storage empty_storage in
  let c' := (toy_handleSubmit legacy_group (clock_at 6000) c b).1.1 in
  (isRateLimited 6000 c).1 = true
  ∧ error c' = Some errors_empty
  ∧ lockedUntil c' = None
  ∧ ¬ surfaces_lockout 6000 c'.
Proof.
  repeat split; try reflexivity.
  intros [Herr _]. vm_compute in Herr. discriminate.
Qed.

(** A group without probe, with a local storage that throws and a
    working session storage. *)
Lemma absent_probe_always_verifies_witness :
  let c := typed "anything at all" [] None in
  let b := mkBrowser denied_storage empty_storage in
  let passwordKey :=
    take 32 (String.list_byte_of_string "anything at allc2FsdA=="
               ++ replicate 32 Byte.x00) in
  let run := toy_handleSubmit legacy_group (clock_at 1000) c b in
  (∀ key, verify toy_decrypt (encryptedGroupName legacy_group) key
          = (Verified key, []))
  ∧ Forall (λ e, is_decrypt e = false) run.2
  ∧ run.2 = [EvDerive "anything at all"
               (String.list_byte_of_string "c2FsdA==") 32;
             EvOnSuccess passwordKey]
  ∧ attempts run.1.1 = recent 1000 []
  ∧ error run.1.1 = None
  ∧ password run.1.1 = "anything at all".
Proof.
  apply (absent_probe_always_verifies ascii_trim toy_base64ToKey toy_derive
           toy_combine toy_decrypt toy_keyToBase64 legacy_group
           (clock_at 1000) (typed "anything at all" [] None)
           (mkBrowser denied_storage empty_storage)
           (take 32 (String.list_byte_of_string "anything at allc2FsdA=="
                       ++ replicate 32 Byte.x00))
           (take 32 (String.list_byte_of_string "anything at allc2FsdA=="
                       ++ replicate 32 Byte.x00))
           [EvDerive "anything at all"
              (String.list_byte_of_string "c2FsdA==") 32]).
  - left. reflexivity.
  - vm_compute. discriminate.
  - reflexivity.
  - reflexivity.
  - vm_compute. discriminate.
  - reflexivity.
Defined.

(** C3, at the failing input.  The group has no probe, so the
    verification accepts the candidate key without a call to [decrypt].
    With working storage the key reaches [onSuccess] and nothing is
    recorded.  With browser storage that throws on access the same
    submission is verified just the same and survives the failed local
    write, but the session-scoped write throws into the outer [catch]:
    a failed attempt is recorded, the invalid-password error is shown, the
    input is cleared and [onSuccess] is never called. *)
Theorem absent_probe_session_failure_is_recorded :
  let c := typed "anything at all" [] None in
  let fine :=
    toy_handleSubmit legacy_group (clock_at 1000) c
      (mkBrowser empty_storage empty_storage) in
  let broken :=
    toy_handleSubmit legacy_group (clock_at 1000) c
      (mkBrowser denied_storage denied_storage) in
  encryptedGroupName legacy_group = None
  ∧ (∀ key, verify toy_decrypt (encryptedGroupName legacy_group) key
            = (Verified key, []))
  ∧ (error fine.1.1 = None ∧ attempts fine.1.1 = []
     ∧ ∃ key, last fine.2 = Some (EvOnSuccess key))
  ∧ Forall (λ e, is_decrypt e = false) broken.2
  ∧ Forall (λ e, ∀ key, e ≠ EvOnSuccess key) broken.2
  ∧ error broken.1.1 = Some errors_invalid
  ∧ attempts broken.1.1 = [1000]
  ∧ password broken.1.1 = "".
Proof.
  split; [reflexivity|]. split; [intros key; reflexivity|].
  split.
  { split; [reflexivity|]. split; [reflexivity|].
    eexists. vm_compute. reflexivity. }
  split; [vm_compute; by repeat constructor|].
  split; [vm_compute; by repeat constructor|].
  repeat split; reflexivity.
Qed.

(** C5, at the failing input. The password is the right one: with a working
    session storage the probe decrypts and the key reaches [onSuccess].
    With browser storage that throws on access the same submission, whose
    probe decrypts just as well, survives the failed local write but never
    reaches [onSuccess] once the session-scoped write throws: it is counted
    as a failed attempt, shows the invalid-password error and clears the
    input. *)
Theorem session_write_failure_counts_as_wrong_password :
  let c := typed "correct horse" [] None in
  let fine :=
    toy_handleSubmit protected_group (clock_at 1000) c
      (mkBrowser empty_storage empty_storage) in
  let broken :=
    toy_handleSubmit protected_group (clock_at 1000) c
      (mkBrowser denied_storage denied_storage) in
  (error fine.1.1 = None ∧ attempts fine.1.1 = []
   ∧ ∃ key, last fine.2 = Some (EvOnSuccess key))
  ∧ (∃ ciphertext key, last broken.2 = Some (EvDecrypt ciphertext key)
                       ∧ toy_decrypt ciphertext key = Some "Holidays")
  ∧ error broken.1.1 = Some errors_invalid
  ∧ attempts broken.1.1 = [1000]
  ∧ password broken.1.1 = "".
Proof.
  split; [|split].
  - split; [reflexivity|]. split; [reflexivity|].
    eexists. vm_compute. reflexivity.
  - do 2 eexists. split; vm_compute; reflexivity.
  - repeat split; reflexivity.
Qed.

End PasswordPromptFacts.

(** * Properties of the operation rate-limit middleware *)

Module TrpcFacts.
Import Trpc.

Section Middleware.

Context {World Result : Type}.
Variable checkOperationRateLimit :
  string → Z → Z → World → OperationLimit * World.
Variable recordOperationAttempt : string → Z → Z → World → World.
Variable next : World → Outcome Result * World.

Local Abbreviation middleware :=
  (createRateLimitMiddleware checkOperationRateLimit recordOperationAttempt
     next).

(** C8. With a group id in the parsed or in the raw input, the middleware
    checks the limit under the key [operation:groupId] first.  When limited
    it throws TOO_MANY_REQUESTS with the retry time in seconds in the
    message, and neither records nor runs the handler; otherwise it records
    the attempt under the same key and then runs the handler on the
    resulting state. *)
Theorem middleware_checks_then_records
    operation maxAttempts windowMs input rawInput w g :
  effective_groupId input rawInput = Some g →
  let key := rate_limit_key operation g in
  let limit := (checkOperationRateLimit key maxAttempts windowMs w).1 in
  let w1 := (checkOperationRateLimit key maxAttempts windowMs w).2 in
  let result := middleware operation maxAttempts windowMs input rawInput w in
  key = operation +:+ ":" +:+ g
  ∧ if isLimited limit then
      result =
        (Threw (mkTRPCError TOO_MANY_REQUESTS
                  ("Too many " +:+ operation
                     +:+ " attempts. Please try again in "
                     +:+ show_number (retryAfter limit) +:+ " seconds.")),
         w1,
         raw_lookup input ++ [DidCheck key maxAttempts windowMs])
    else
      result =
        ((next (recordOperationAttempt key maxAttempts windowMs w1)).1,
         (next (recordOperationAttempt key maxAttempts windowMs w1)).2,
         raw_lookup input
           ++ [DidCheck key maxAttempts windowMs;
               DidRecord key maxAttempts windowMs; DidNext]).
Proof.
  intros Hg key limit w1 result. split; [done|].
  subst result limit w1.
  unfold createRateLimitMiddleware, effective_groupId, raw_lookup in *.
  destruct (groupId_of input) as [g'|] eqn:Hin.
  - injection Hg as ->. rewrite Hin. fold key.
    destruct (checkOperationRateLimit key maxAttempts windowMs w)
      as [limit w1]. simpl.
    destruct (isLimited limit); [done|].
    by destruct (next (recordOperationAttempt key maxAttempts windowMs w1)).
  - rewrite Hg. fold key.
    destruct (checkOperationRateLimit key maxAttempts windowMs w)
      as [limit w1]. simpl.
    destruct (isLimited limit); [done|].
    by destruct (next (recordOperationAttempt key maxAttempts windowMs w1)).
Qed.

(** C10. When neither the parsed nor the raw input has a group id, the
    middleware runs the handler on the unchanged state, with no limit check
    and no recorded attempt, whatever the limiter would have answered. *)
Theorem middleware_skips_without_groupId
    operation maxAttempts windowMs input rawInput w :
  groupId_of input = None →
  groupId_of rawInput = None →
  middleware operation maxAttempts windowMs input rawInput w
  = ((next w).1, (next w).2, [DidGetRawInput; DidNext]).
Proof.
  intros Hin Hraw. unfold createRateLimitMiddleware.
  rewrite Hin, Hraw. by destruct (next w).
Qed.

End Middleware.

(** *** The expense-creation procedure on a toy limiter *)

Import Samples.

(** C8 on the raw input [{groupId: "g1"}]: limited once the counter of
    the key has reached 100, recorded and handled on an empty store. *)
Lemma middleware_checks_then_records_witness :
  let w : gmap string Z := {[ "create-expense:g1" := 100 ]} in
  let raw := Some (mkInput (Some "g1")) in
  createRateLimitMiddleware toy_check toy_record toy_handler
    "create-expense" 100 HOUR_MS None raw w
  = (Threw (mkTRPCError TOO_MANY_REQUESTS
       "Too many create-expense attempts. Please try again in 3600 seconds."),
     w, [DidGetRawInput; DidCheck "create-expense:g1" 100 HOUR_MS])
  ∧ createRateLimitMiddleware toy_check toy_record toy_handler
      "create-expense" 100 HOUR_MS None raw ∅
    = (Returned "expense", {[ "create-expense:g1" := 1 ]},
       [DidGetRawInput; DidCheck "create-expense:g1" 100 HOUR_MS;
        DidRecord "create-expense:g1" 100 HOUR_MS; DidNext]).
Proof.
  split.
  - exact (proj2 (middleware_checks_then_records toy_check toy_record
             toy_handler "create-expense" 100 HOUR_MS None
             (Some (mkInput (Some "g1")))
             {[ "create-expense:g1" := 100 ]} "g1" eq_refl)).
  - exact (proj2 (middleware_checks_then_records toy_check toy_record
             toy_handler "create-expense" 100 HOUR_MS None
             (Some (mkInput (Some "g1"))) ∅ "g1" eq_refl)).
Defined.

(** C10 on a raw input whose group id is the empty string, with a limiter
    that would refuse the key. *)
Lemma middleware_skips_without_groupId_witness :
  let w : gmap string Z := {[ "create-expense:" := 100 ]} in
  createRateLimitMiddleware toy_check toy_record toy_handler
    "create-expense" 100 HOUR_MS None (Some (mkInput (Some ""))) w
  = (Returned "expense", w, [DidGetRawInput; DidNext]).
Proof.
  intros w.
  refine (eq_trans
    (middleware_skips_without_groupId toy_check toy_record toy_handler
       "create-expense" 100 HOUR_MS None (Some (mkInput (Some ""))) w
       eq_refl eq_refl) _).
  reflexivity.
Defined.

End TrpcFacts.

(** * Further properties of the rate limiter *)

Module RateLimitMore.
Import RateLimit RateLimitSweep RateLimitFacts.

Section Windows.

Variable toLowerCase : string → string.
Variable STORAGE_TYPE : StorageType.

Local Abbreviation check := (checkRateLimit toLowerCase).
Local Abbreviation record := (recordFailedAttempt toLowerCase STORAGE_TYPE).
Local Abbreviation records := (recordFailures toLowerCase STORAGE_TYPE).
Local Abbreviation clear := (clearAttempts toLowerCase STORAGE_TYPE).

Lemma checkRateLimit_memory_state email now s :
  storage s ≠ Some TheDatabaseStorage →
  storage (check email now s).2 = storage s
  ∧ attempts_of (check email now s).2
    = after_check now (toLowerCase email) (attempts_of s).
Proof.
  intros Hmem. unfold checkRateLimit.
  destruct (getStorageSync_memory s Hmem) as (s0 & Hget & Hst & Hatt & _).
  unfold bind. rewrite Hget.
  unfold checkRateLimitSync, after_check, attempts_set, attempts_delete,
    bind, get_state, ret, modify.
  rewrite Hatt.
  destruct (attempts_of s !! toLowerCase email) as [r|]; [|done].
  destruct (active_lock now r); [done|].
  destruct (now - firstAttempt r >? WINDOW_MS); [simpl; by rewrite Hatt|].
  destruct (count r >=? MAX_ATTEMPTS); [simpl; by rewrite Hatt|done].
Qed.

(** Failures recorded inside the window of an unlocked record, short of the
    limit, only count up. *)
Lemma recordFailures_below_limit email times : ∀ s c t0,
  storage s ≠ Some TheDatabaseStorage →
  attempts_of s !! toLowerCase email = Some (mkAttempt c t0 None) →
  c + Z.of_nat (length times) < MAX_ATTEMPTS →
  Forall (λ t, t - t0 ≤ WINDOW_MS) times →
  storage (records email times s).2 ≠ Some TheDatabaseStorage
  ∧ attempts_of (records email times s).2 !! toLowerCase email
    = Some (mkAttempt (c + Z.of_nat (length times)) t0 None).
Proof.
  induction times as [|t rest IH]; intros s c t0 Hmem Hrec Hlen Hwin.
  - simpl. split; [done|]. rewrite Hrec. do 2 f_equal. lia.
  - rewrite recordFailures_cons.
    destruct (recordFailedAttempt_memory toLowerCase STORAGE_TYPE email t s
                Hmem) as [Hst Hatt].
    set (s1 := (record email t s).2) in *.
    apply Forall_cons in Hwin as [Hin Hwin].
    rewrite Hrec in Hatt. simpl in Hatt.
    destruct (t - t0 >? WINDOW_MS) eqn:Hgt; [lia|].
    simpl in Hlen.
    destruct (IH s1 (c + 1) t0) as [Hmem' Hrec']; try done.
    + by rewrite Hst.
    + rewrite Hatt, lookup_insert_eq. unfold bump. simpl.
      destruct (c + 1 >=? MAX_ATTEMPTS) eqn:Hge; [lia|done].
    + lia.
    + split; [done|]. rewrite Hrec'. do 2 f_equal. simpl. lia.
Qed.

(** From a key without a record, [k] failures in one window leave the
    record [{count: k, firstAttempt: t0}] when [k] is below the limit. *)
Lemma recordFailures_from_scratch email t0 rest s :
  storage s ≠ Some TheDatabaseStorage →
  attempts_of s !! toLowerCase email = None →
  Z.of_nat (length (t0 :: rest)) < MAX_ATTEMPTS →
  Forall (λ t, t - t0 ≤ WINDOW_MS) (t0 :: rest) →
  storage (records email (t0 :: rest) s).2 ≠ Some TheDatabaseStorage
  ∧ attempts_of (records email (t0 :: rest) s).2 !! toLowerCase email
    = Some (mkAttempt (Z.of_nat (length (t0 :: rest))) t0 None).
Proof.
  intros Hmem Hnone Hlen Hwin. rewrite recordFailures_cons.
  destruct (recordFailedAttempt_memory toLowerCase STORAGE_TYPE email t0 s
              Hmem) as [Hst Hatt].
  set (s1 := (record email t0 s).2) in *.
  rewrite Hnone in Hatt. simpl in Hatt.
  apply Forall_cons in Hwin as [_ Hwin]. simpl in Hlen.
  destruct (recordFailures_below_limit email rest s1 1 t0) as [Hm Hr];
    try done.
  - by rewrite Hst.
  - by rewrite Hatt, lookup_insert_eq.
  - lia.
  - split; [done|]. rewrite Hr. do 2 f_equal. simpl. lia.
Qed.

(** X1. Fewer than [MAX_ATTEMPTS] failures recorded in one window, from a
    key without a record: a check inside that window is not limited and
    reports [MAX_ATTEMPTS] minus the number of failures. *)
Theorem remaining_attempts_count_down email t0 rest now s :
  storage s ≠ Some TheDatabaseStorage →
  attempts_of s !! toLowerCase email = None →
  Z.of_nat (length (t0 :: rest)) < MAX_ATTEMPTS →
  Forall (λ t, t - t0 ≤ WINDOW_MS) (t0 :: rest) →
  now - t0 ≤ WINDOW_MS →
  (check email now (records email (t0 :: rest) s).2).1
  = not_limited (MAX_ATTEMPTS - Z.of_nat (length (t0 :: rest))).
Proof.
  intros Hmem Hnone Hlen Hwin Hnow.
  destruct (recordFailures_from_scratch email t0 rest s) as [Hm Hr];
    try done.
  rewrite checkRateLimit_memory by done. rewrite Hr.
  unfold verdict, active_lock. cbn [lockedUntil firstAttempt count].
  destruct (now - t0 >? WINDOW_MS) eqn:Hgt; [lia|].
  destruct (Z.of_nat (length (t0 :: rest)) >=? MAX_ATTEMPTS) eqn:Hge;
    [lia|done].
Qed.

(** X2. Fewer than [MAX_ATTEMPTS] failures, and a check after the window of
    the first one has lapsed: the check reports all attempts as remaining
    and deletes the record, so that the next failure opens a new window
    with count 1. *)
Theorem lapsed_window_resets email t0 rest now later s :
  storage s ≠ Some TheDatabaseStorage →
  attempts_of s !! toLowerCase email = None →
  Z.of_nat (length (t0 :: rest)) < MAX_ATTEMPTS →
  Forall (λ t, t - t0 ≤ WINDOW_MS) (t0 :: rest) →
  WINDOW_MS < now - t0 →
  let s1 := (records email (t0 :: rest) s).2 in
  (check email now s1).1 = not_limited MAX_ATTEMPTS
  ∧ attempts_of (check email now s1).2 !! toLowerCase email = None
  ∧ attempts_of (record email later (check email now s1).2).2
      !! toLowerCase email
    = Some (fresh later).
Proof.
  intros Hmem Hnone Hlen Hwin Hnow s1.
  destruct (recordFailures_from_scratch email t0 rest s) as [Hm Hr];
    try done.
  fold s1 in Hm, Hr.
  destruct (checkRateLimit_memory_state email now s1 Hm) as [Hst Hatt].
  assert (Hdel : attempts_of (check email now s1).2 !! toLowerCase email
                 = None).
  { rewrite Hatt. unfold after_check. rewrite Hr.
    unfold active_lock. simpl.
    destruct (now - t0 >? WINDOW_MS) eqn:Hgt; [|lia].
    apply lookup_delete_eq. }
  split; [|split; [done|]].
  - rewrite checkRateLimit_memory by done. rewrite Hr. simpl.
    unfold active_lock. simpl.
    by destruct (now - t0 >? WINDOW_MS) eqn:Hgt; [|lia].
  - destruct (recordFailedAttempt_memory toLowerCase STORAGE_TYPE email later
                (check email now s1).2) as [_ ->]; [by rewrite Hst|].
    by rewrite lookup_insert_eq, Hdel.
Qed.

(** X3. After [MAX_ATTEMPTS] failures in one window (clock readings not
    before the first one), a check made once the lock has run out is not
    limited, reports all attempts as remaining and deletes the record. *)
Theorem expired_lock_readmits email t0 rest tl now s :
  storage s ≠ Some TheDatabaseStorage →
  attempts_of s !! toLowerCase email = None →
  Z.of_nat (length (t0 :: rest)) = MAX_ATTEMPTS →
  last (t0 :: rest) = Some tl →
  Forall (λ t, t - t0 ≤ WINDOW_MS) (t0 :: rest) →
  t0 ≤ tl →
  tl + LOCKOUT_MS ≤ now →
  let s1 := (records email (t0 :: rest) s).2 in
  (check email now s1).1 = not_limited MAX_ATTEMPTS
  ∧ attempts_of (check email now s1).2 !! toLowerCase email = None.
Proof.
  intros Hmem Hnone Hlen Hlast Hwin Hmono Hnow s1. subst s1.
  rewrite recordFailures_cons.
  destruct (recordFailedAttempt_memory toLowerCase STORAGE_TYPE email t0 s
              Hmem) as [Hst Hatt].
  set (s1 := (record email t0 s).2) in *.
  rewrite Hnone in Hatt. simpl in Hatt.
  assert (Hmem1 : storage s1 ≠ Some TheDatabaseStorage) by (by rewrite Hst).
  destruct rest as [|t1 rest1];
    [simpl in Hlen; unfold MAX_ATTEMPTS in Hlen; lia|].
  destruct (recordFailures_reach_limit toLowerCase STORAGE_TYPE email
              (t1 :: rest1) s1 1 t0 tl) as [Hmem2 Hrec]; try done.
  - by rewrite Hatt, lookup_insert_eq.
  - simpl in Hlen |- *. lia.
  - by apply Forall_cons in Hwin as [_ Hwin].
  - set (s2 := (records email (t1 :: rest1) s1).2) in *.
    assert (Hlock : active_lock now
              (mkAttempt MAX_ATTEMPTS t0 (Some (tl + LOCKOUT_MS))) = None).
    { unfold active_lock. simpl.
      destruct (now <? tl + LOCKOUT_MS) eqn:Hlt; [lia|].
      by rewrite andb_false_r. }
    assert (Hgt : (now - t0 >? WINDOW_MS) = true)
      by (unfold LOCKOUT_MS, WINDOW_MS in *; lia).
    split.
    + rewrite checkRateLimit_memory by done. rewrite Hrec. simpl.
      cbn [firstAttempt] in *. by rewrite Hlock, Hgt.
    + destruct (checkRateLimit_memory_state email now s2 Hmem2) as [_ ->].
      unfold after_check. rewrite Hrec, Hlock. cbn [firstAttempt].
      rewrite Hgt. apply lookup_delete_eq.
Qed.

(** *** Checks repeat, identities do not interfere *)

Lemma after_check_verdict now key (m : gmap string AttemptRecord) :
  0 ≤ now →
  verdict now (after_check now key m !! key) = verdict now (m !! key)
  ∧ after_check now key (after_check now key m) = after_check now key m.
Proof.
  intros Hnow. unfold after_check.
  destruct (m !! key) as [r|] eqn:Hr; [|by rewrite Hr].
  destruct (active_lock now r) as [l|] eqn:Hlock; [by rewrite Hr, Hlock|].
  destruct (now - firstAttempt r >? WINDOW_MS) eqn:Hgt.
  { rewrite lookup_delete_eq. simpl. by rewrite Hlock, Hgt. }
  destruct (count r >=? MAX_ATTEMPTS) eqn:Hge;
    [|by rewrite Hr, Hlock, Hgt, Hge].
  assert (Hnew : active_lock now (with_lockedUntil (now + LOCKOUT_MS) r)
                 = Some (now + LOCKOUT_MS)).
  { unfold active_lock, with_lockedUntil. simpl.
    assert ((now + LOCKOUT_MS =? 0) = false) as ->
      by (apply Z.eqb_neq; unfold LOCKOUT_MS; lia).
    assert ((now <? now + LOCKOUT_MS) = true) as ->
      by (apply Z.ltb_lt; unfold LOCKOUT_MS; lia).
    done. }
  rewrite lookup_insert_eq. simpl. rewrite Hnew, Hlock, Hgt, Hge.
  split; [|done]. do 2 f_equal. lia.
Qed.

Lemma after_check_other now key key' (m : gmap string AttemptRecord) :
  key ≠ key' → after_check now key m !! key' = m !! key'.
Proof.
  intros Hne. unfold after_check.
  destruct (m !! key) as [r|]; [|done].
  destruct (active_lock now r); [done|].
  destruct (now - firstAttempt r >? WINDOW_MS);
    [by rewrite lookup_delete_ne|].
  destruct (count r >=? MAX_ATTEMPTS); [by rewrite lookup_insert_ne|done].
Qed.

(** X4. A check repeated at the same clock reading gives the same answer
    and changes nothing more, on either backend. *)
Theorem check_twice_same email now s :
  0 ≤ now →
  (check email now (check email now s).2).1 = (check email now s).1
  ∧ attempts_of (check email now (check email now s).2).2
    = attempts_of (check email now s).2.
Proof.
  intros Hnow.
  assert (storage s = Some TheDatabaseStorage
          ∨ storage s ≠ Some TheDatabaseStorage) as [Hdb|Hmem]
    by (destruct (storage s) as [[]|]; auto).
  - rewrite (checkRateLimit_database toLowerCase email now s Hdb). simpl.
    by rewrite (checkRateLimit_database toLowerCase email now s Hdb).
  - destruct (checkRateLimit_memory_state email now s Hmem) as [Hst Hatt].
    assert (Hmem1 : storage (check email now s).2 ≠ Some TheDatabaseStorage)
      by (by rewrite Hst).
    destruct (checkRateLimit_memory_state email now _ Hmem1) as [_ Hatt2].
    destruct (after_check_verdict now (toLowerCase email) (attempts_of s)
                Hnow) as [Hv Hm].
    split.
    + rewrite !checkRateLimit_memory by done. by rewrite Hatt.
    + by rewrite Hatt2, Hatt.
Qed.

(** X5. On the in-memory backend, recording a failure, clearing or
    checking one identity leaves the answer for every identity with another
    key as it was. *)
Theorem other_identities_untouched email other now now' s :
  storage s ≠ Some TheDatabaseStorage →
  toLowerCase email ≠ toLowerCase other →
  (checkRateLimit toLowerCase other now'
     (recordFailedAttempt toLowerCase STORAGE_TYPE email now s).2).1
  = (checkRateLimit toLowerCase other now' s).1
  ∧ (checkRateLimit toLowerCase other now'
       (clearAttempts toLowerCase STORAGE_TYPE email s).2).1
    = (checkRateLimit toLowerCase other now' s).1
  ∧ (checkRateLimit toLowerCase other now'
       (checkRateLimit toLowerCase email now s).2).1
    = (checkRateLimit toLowerCase other now' s).1.
Proof.
  intros Hmem Hne.
  destruct (recordFailedAttempt_memory toLowerCase STORAGE_TYPE email now s
              Hmem) as [Hst1 Hatt1].
  destruct (clearAttempts_memory toLowerCase STORAGE_TYPE email s Hmem)
    as [Hst2 Hatt2].
  destruct (checkRateLimit_memory_state email now s Hmem) as [Hst3 Hatt3].
  rewrite !checkRateLimit_memory by congruence.
  rewrite Hatt1, Hatt2, Hatt3.
  by rewrite lookup_insert_ne, lookup_delete_ne, after_check_other.
Qed.

(** *** The periodic sweep of the in-memory storage *)

Lemma cleanupTick_attempts now s :
  storage (cleanupTick now s).2 = storage s
  ∧ attempts_of (cleanupTick now s).2
    = filter (λ kv, stale now kv.2 = false) (attempts_of s).
Proof.
  unfold cleanupTick, attempts_of, bind, get_state, modify, ret.
  destruct (memoryStorage s) as [m|] eqn:Hm; simpl; rewrite ?Hm; [done|].
  by rewrite map_filter_empty.
Qed.

(** X6. A sweep that runs no later than the end of a lock keeps the locked
    record, so a check made during the lock stays limited after it. *)
Theorem sweep_keeps_lock email t now l r s :
  storage s ≠ Some TheDatabaseStorage →
  attempts_of s !! toLowerCase email = Some r →
  active_lock now r = Some l →
  t ≤ l →
  attempts_of (cleanupTick t s).2 !! toLowerCase email = Some r
  ∧ (check email now (cleanupTick t s).2).1
    = limited (ceil_div (l - now) 1000).
Proof.
  intros Hmem Hr Hlock Ht.
  destruct (cleanupTick_attempts t s) as [Hst Hatt].
  assert (Hkeep : attempts_of (cleanupTick t s).2 !! toLowerCase email
                  = Some r).
  { rewrite Hatt. apply map_lookup_filter_Some. split; [done|]. simpl.
    unfold active_lock in Hlock. unfold stale, truthy.
    destruct (lockedUntil r) as [l'|]; [|done].
    destruct (l' =? 0); simpl in *; [done|].
    destruct (now <? l'); [|done]. injection Hlock as ->.
    assert ((t >? l) = false) as -> by lia. done. }
  split; [done|].
  rewrite checkRateLimit_memory by (by rewrite Hst).
  rewrite Hkeep. simpl. by rewrite Hlock.
Qed.

Lemma stale_verdict t now r :
  t ≤ now →
  lock_outlives_window r →
  stale t r = true →
  verdict now (Some r) = not_limited MAX_ATTEMPTS.
Proof.
  intros Ht Hout Hstale. unfold stale, truthy in Hstale.
  unfold lock_outlives_window in Hout.
  unfold verdict, active_lock.
  destruct (lockedUntil r) as [l|].
  - destruct (l =? 0) eqn:Hz; simpl in *.
    + rewrite orb_false_r in Hstale.
      assert ((now - firstAttempt r >? WINDOW_MS) = true) as -> by lia.
      done.
    + assert ((now <? l) = false) as -> by lia.
      assert ((now - firstAttempt r >? WINDOW_MS) = true) as -> by lia.
      done.
  - simpl in Hstale. rewrite orb_false_r in Hstale.
    assert ((now - firstAttempt r >? WINDOW_MS) = true) as -> by lia.
    done.
Qed.

(** X7. The sweep is invisible to a later check: when the record of an
    identity has no lock or a lock that ends after its window, a check
    answers the same whether or not a sweep ran before it. *)
Theorem sweep_is_transparent email t now s :
  t ≤ now →
  (∀ r, attempts_of s !! toLowerCase email = Some r →
        lock_outlives_window r) →
  (check email now (cleanupTick t s).2).1 = (check email now s).1.
Proof.
  intros Ht Hout.
  destruct (cleanupTick_attempts t s) as [Hst Hatt].
  assert (storage s = Some TheDatabaseStorage
          ∨ storage s ≠ Some TheDatabaseStorage) as [Hdb|Hmem]
    by (destruct (storage s) as [[]|]; auto).
  - rewrite !checkRateLimit_database by congruence. done.
  - rewrite !checkRateLimit_memory by congruence. rewrite Hatt.
    destruct (attempts_of s !! toLowerCase email) as [r|] eqn:Hr.
    + destruct (stale t r) eqn:Hstale.
      * rewrite (stale_verdict t now r Ht (Hout r eq_refl) Hstale).
        assert (filter (λ kv, stale t kv.2 = false) (attempts_of s)
                  !! toLowerCase email = None) as ->; [|done].
        apply map_lookup_filter_None. right. intros r' Hr'. simpl.
        rewrite Hr in Hr'. injection Hr' as <-. congruence.
      * assert (filter (λ kv, stale t kv.2 = false) (attempts_of s)
                  !! toLowerCase email = Some r) as ->; [|done].
        by apply map_lookup_filter_Some.
    + assert (filter (λ kv, stale t kv.2 = false) (attempts_of s)
                !! toLowerCase email = None) as ->; [|done].
      apply map_lookup_filter_None. by left.
Qed.

End Windows.

(** *** Invariants of the module state *)

Lemma preserves_ret {A} (P : State → Prop) (a : A) : preserves P (ret a).
Proof. by intros s. Qed.

Lemma preserves_get (P : State → Prop) : preserves P get_state.
Proof. by intros s. Qed.

Lemma preserves_modify (P : State → Prop) (f : State → State) :
  (∀ s, P s → P (f s)) → preserves P (modify f).
Proof. intros Hf s. apply Hf. Qed.

Lemma preserves_bind {A B} (P : State → Prop) (c : M A) (k : A → M B) :
  preserves P c → (∀ a, preserves P (k a)) → preserves P (bind c k).
Proof.
  intros Hc Hk s Hs. unfold bind.
  specialize (Hc s Hs). destruct (c s) as [a s1]. by apply Hk.
Qed.

Ltac step_preserves :=
  repeat first
    [ apply preserves_ret
    | apply preserves_get
    | apply preserves_bind; [|intros ?]
    | apply preserves_modify; solve [auto]
    | case_match ].

(** Every call keeps an invariant that the three object setters and the
    storage factory keep. *)
Section Invariants.

Variable toLowerCase : string → string.
Variable STORAGE_TYPE : StorageType.
Variable P : State → Prop.

Hypothesis keeps_database : ∀ d s, P s → P (set_databaseStorage d s).
Hypothesis keeps_memory : ∀ m s, P s → P (set_memoryStorage m s).
Hypothesis keeps_table : ∀ t s, P s → P (set_prisma t s).
Hypothesis keeps_factory : preserves P (getStorage STORAGE_TYPE).

Lemma checkTableExists_preserves : preserves P checkTableExists.
Proof. unfold checkTableExists. step_preserves. Qed.

Lemma db_get_preserves key : preserves P (db_get key).
Proof.
  unfold db_get. apply preserves_bind; [apply checkTableExists_preserves|].
  intros ok. step_preserves.
Qed.

Lemma db_set_preserves key r now : preserves P (db_set key r now).
Proof.
  unfold db_set. apply preserves_bind; [apply checkTableExists_preserves|].
  intros ok. step_preserves.
Qed.

Lemma db_delete_preserves key : preserves P (db_delete key).
Proof.
  unfold db_delete. apply preserves_bind; [apply checkTableExists_preserves|].
  intros ok. step_preserves.
Qed.

Lemma store_get_preserves r key : preserves P (store_get r key).
Proof.
  destruct r; [unfold store_get; step_preserves|apply db_get_preserves].
Qed.

Lemma store_set_preserves r key rec now :
  preserves P (store_set r key rec now).
Proof.
  destruct r; [unfold store_set; step_preserves|apply db_set_preserves].
Qed.

Lemma store_delete_preserves r key : preserves P (store_delete r key).
Proof.
  destruct r; [unfold store_delete; step_preserves|apply db_delete_preserves].
Qed.

Lemma getStorageSync_preserves : preserves P getStorageSync.
Proof. unfold getStorageSync. step_preserves. Qed.

Lemma attempts_set_preserves key r : preserves P (attempts_set key r).
Proof. unfold attempts_set. step_preserves. Qed.

Lemma attempts_delete_preserves key : preserves P (attempts_delete key).
Proof. unfold attempts_delete. step_preserves. Qed.

Lemma checkRateLimitAsync_preserves email now :
  preserves P (checkRateLimitAsync toLowerCase STORAGE_TYPE email now).
Proof.
  unfold checkRateLimitAsync.
  apply preserves_bind; [done|]. intros store.
  apply preserves_bind; [apply store_get_preserves|]. intros found.
  repeat case_match; try apply preserves_ret;
    (apply preserves_bind; [|intros ?; apply preserves_ret]);
    first [apply store_delete_preserves | apply store_set_preserves].
Qed.

Lemma recordFailedAttemptAsync_preserves email now :
  preserves P (recordFailedAttemptAsync toLowerCase STORAGE_TYPE email now).
Proof.
  unfold recordFailedAttemptAsync.
  apply preserves_bind; [done|]. intros store.
  apply preserves_bind; [apply store_get_preserves|]. intros found.
  repeat case_match; apply store_set_preserves.
Qed.

Lemma clearAttemptsAsync_preserves email :
  preserves P (clearAttemptsAsync toLowerCase STORAGE_TYPE email).
Proof.
  unfold clearAttemptsAsync.
  apply preserves_bind; [done|]. intros store. apply store_delete_preserves.
Qed.

Lemma checkRateLimit_preserves email now :
  preserves P (checkRateLimit toLowerCase email now).
Proof.
  unfold checkRateLimit.
  apply preserves_bind; [apply getStorageSync_preserves|]. intros store.
  unfold checkRateLimitSync.
  destruct store; [|apply preserves_ret].
  apply preserves_bind; [apply preserves_get|]. intros s0.
  repeat case_match; try apply preserves_ret;
    (apply preserves_bind; [|intros ?; apply preserves_ret]);
    first [apply attempts_delete_preserves | apply attempts_set_preserves].
Qed.

Lemma recordFailedAttempt_preserves email now :
  preserves P (recordFailedAttempt toLowerCase STORAGE_TYPE email now).
Proof.
  unfold recordFailedAttempt.
  apply preserves_bind; [apply getStorageSync_preserves|]. intros store.
  destruct store; [|apply recordFailedAttemptAsync_preserves].
  apply preserves_bind; [apply preserves_get|]. intros s0.
  repeat case_match; apply attempts_set_preserves.
Qed.

Lemma clearAttempts_preserves email :
  preserves P (clearAttempts toLowerCase STORAGE_TYPE email).
Proof.
  unfold clearAttempts.
  apply preserves_bind; [apply getStorageSync_preserves|]. intros store.
  destruct store;
    [apply attempts_delete_preserves|apply clearAttemptsAsync_preserves].
Qed.

Lemma cleanupTick_preserves now : preserves P (cleanupTick now).
Proof. unfold cleanupTick. step_preserves. Qed.

Lemma call_preserves c : preserves P (call toLowerCase STORAGE_TYPE c).
Proof.
  destruct c; unfold call;
    (apply preserves_bind; [|intros ?; apply preserves_ret]).
  - apply checkRateLimit_preserves.
  - apply checkRateLimitAsync_preserves.
  - apply recordFailedAttempt_preserves.
  - apply recordFailedAttemptAsync_preserves.
  - apply clearAttempts_preserves.
  - apply clearAttemptsAsync_preserves.
  - apply cleanupTick_preserves.
Qed.

Lemma run_preserves calls : preserves P (run toLowerCase STORAGE_TYPE calls).
Proof.
  induction calls as [|c rest IH]; [apply preserves_ret|].
  simpl. apply preserves_bind; [apply call_preserves|]. intros o.
  apply preserves_bind; [done|]. intros os. apply preserves_ret.
Qed.

End Invariants.

(** *** The choice of a backend *)

Section Backends.

Variable toLowerCase : string → string.
Variable STORAGE_TYPE : StorageType.

(** X8. Once [storage] is initialised, no sequence of calls ever changes
    the backend. *)
Theorem backend_is_permanent calls r s :
  storage s = Some r →
  storage (run toLowerCase STORAGE_TYPE calls s).2 = Some r.
Proof.
  apply (run_preserves toLowerCase STORAGE_TYPE (λ s, storage s = Some r));
    try done.
  intros s0 Hs0. unfold getStorage, bind, get_state, ret. by rewrite Hs0.
Qed.

(** X14. On an initialised in-memory backend the asynchronous procedures
    can stand for the synchronous ones: a sequence of calls gives the same
    results and the same final state when each asynchronous call is
    replaced by its synchronous counterpart. *)
Theorem async_calls_are_interchangeable calls : ∀ s,
  storage s = Some TheMemoryStorage →
  run toLowerCase STORAGE_TYPE calls s
  = run toLowerCase STORAGE_TYPE (synchronous <$> calls) s.
Proof.
  induction calls as [|c rest IH]; intros s Hs; [done|].
  rewrite fmap_cons. cbn [run]. unfold bind.
  assert (call toLowerCase STORAGE_TYPE (synchronous c) s
          = call toLowerCase STORAGE_TYPE c s) as ->.
  { destruct (async_agrees_with_sync_on_memory toLowerCase STORAGE_TYPE
                "" 0 s Hs) as (_ & _ & Hclear).
    destruct c as [email now|email now|email now|email now|email|email|now];
      cbn [synchronous call]; try done; unfold bind;
      try destruct (async_agrees_with_sync_on_memory toLowerCase STORAGE_TYPE
                      email now s Hs) as (Hcheck & Hrecord & _).
    - by rewrite Hcheck.
    - by rewrite Hrecord.
    - by destruct (async_agrees_with_sync_on_memory toLowerCase STORAGE_TYPE
                     email 0 s Hs) as (_ & _ & ->). }
  assert (storage (call toLowerCase STORAGE_TYPE c s).2
          = Some TheMemoryStorage) as Hs1.
  { revert s Hs.
    apply (call_preserves toLowerCase STORAGE_TYPE
             (λ s, storage s = Some TheMemoryStorage)); try done.
    intros s0 Hs0. unfold getStorage, bind, get_state, ret. by rewrite Hs0. }
  destruct (call toLowerCase STORAGE_TYPE c s) as [o s1].
  by rewrite (IH s1 Hs1).
Qed.



Ltac unfold_calls :=
  unfold call, checkRateLimit, checkRateLimitAsync, recordFailedAttempt,
    recordFailedAttemptAsync, clearAttempts, clearAttemptsAsync, cleanupTick,
    checkRateLimitSync, getStorageSync, getStorage, store_get, store_set,
    store_delete, attempts_set, attempts_delete, db_get, db_set, db_delete,
    db_cleanup, checkTableExists, checkDatabaseAvailable, attempts_of,
    bind, get_state, ret, modify.

Ltac crunch := cbn -[insert lookup delete filter fmap mem_cleanup].

(** X10. The first asynchronous call of a module configured [memory] (or
    [auto] with an unreachable table) installs a new, empty in-memory
    storage: whatever the synchronous procedures recorded before, the check
    is not limited, and a failure recorded by that call is the only record
    left. *)
Theorem first_async_call_starts_empty email now s :
  storage s = None →
  STORAGE_TYPE = memory ∨ (STORAGE_TYPE = auto ∧ prisma s = None) →
  (checkRateLimitAsync toLowerCase STORAGE_TYPE email now s).1
  = not_limited MAX_ATTEMPTS
  ∧ attempts_of (checkRateLimitAsync toLowerCase STORAGE_TYPE email now s).2
    = ∅
  ∧ attempts_of
      (recordFailedAttemptAsync toLowerCase STORAGE_TYPE email now s).2
    = {[ toLowerCase email := fresh now ]}.
Proof.
  destruct s as [st d m p]. simpl. intros -> [-> | [-> ->]];
    unfold_calls; crunch; rewrite ?lookup_empty; crunch; done.
Qed.

Lemma call_after_failed_probe c s :
  probe_failed s →
  ((call toLowerCase STORAGE_TYPE c s).1 = None
   ∨ (call toLowerCase STORAGE_TYPE c s).1 = Some (not_limited MAX_ATTEMPTS))
  ∧ prisma (call toLowerCase STORAGE_TYPE c s).2 = prisma s
  ∧ probe_failed (call toLowerCase STORAGE_TYPE c s).2.
Proof.
  destruct s as [st d m p]. unfold probe_failed. simpl. intros [-> ->].
  destruct c; unfold_calls; crunch; auto.
  destruct m; crunch; auto.
Qed.

(** X11. A database storage whose probe found the table unreachable never
    uses the table again, even once it can be reached: every check, of
    either kind, is not limited, and no call reads, writes or deletes a
    row. *)
Theorem failed_probe_disables_database calls : ∀ s,
  probe_failed s →
  Forall (λ o, o = None ∨ o = Some (not_limited MAX_ATTEMPTS))
    (run toLowerCase STORAGE_TYPE calls s).1
  ∧ prisma (run toLowerCase STORAGE_TYPE calls s).2 = prisma s.
Proof.
  induction calls as [|c rest IH]; intros s Hs; [by split|].
  destruct (call_after_failed_probe c s Hs) as (Ho & Hp & Hs1).
  simpl. unfold bind, ret.
  destruct (call toLowerCase STORAGE_TYPE c s) as [o s1]. simpl in *.
  destruct (IH s1 Hs1) as [Hos Hp1].
  destruct (run toLowerCase STORAGE_TYPE rest s1) as [os s2]. simpl in *.
  split; [by constructor|congruence].
Qed.

(** The probe fails when the first asynchronous call of a module configured
    [database] finds no table. *)
Lemma unreachable_table_fails_probe email now :
  probe_failed
    (checkRateLimitAsync toLowerCase database email now (initial None)).2.
Proof. by split. Qed.

End Backends.

(** *** The database storage *)

Section Database.

Lemma db_usable s d table :
  databaseStorage s = Some d →
  tableExists d ≠ Some false →
  prisma s = Some table →
  ∃ s1, checkTableExists s = (true, s1)
        ∧ storage s1 = storage s
        ∧ memoryStorage s1 = memoryStorage s
        ∧ prisma s1 = Some table
        ∧ databaseStorage s1 = Some (mkDatabase (Some true)).
Proof.
  intros Hd Hok Hp. unfold checkTableExists, bind, get_state, ret, modify.
  rewrite Hd. destruct d as [[[]|]]; simpl in *; try done.
  - eexists; split; [done|]. by rewrite Hd.
  - rewrite Hp. eexists; split; [done|]. done.
Qed.

Lemma db_get_usable key s d table :
  databaseStorage s = Some d →
  tableExists d ≠ Some false →
  prisma s = Some table →
  (db_get key s).1 = of_db <$> table !! key.
Proof.
  intros Hd Hok Hp.
  destruct (db_usable s d table Hd Hok Hp) as (s1 & Hc & _ & _ & Hp1 & _).
  unfold db_get, bind. rewrite Hc. simpl. unfold get_state, ret.
  by rewrite Hp1.
Qed.

Lemma db_set_usable key r now s d table :
  databaseStorage s = Some d →
  tableExists d ≠ Some false →
  prisma s = Some table →
  databaseStorage (db_set key r now s).2 = Some (mkDatabase (Some true))
  ∧ prisma (db_set key r now s).2
    = Some (<[key := mkDbRecord (count r) (firstAttempt r) (stored_lock r)
                       now]> table).
Proof.
  intros Hd Hok Hp.
  destruct (db_usable s d table Hd Hok Hp) as (s1 & Hc & _ & _ & Hp1 & Hd1).
  unfold db_set, bind. rewrite Hc. simpl. unfold get_state, modify.
  rewrite Hp1. simpl. by rewrite Hd1.
Qed.

Lemma db_delete_usable key s d table :
  databaseStorage s = Some d →
  tableExists d ≠ Some false →
  prisma s = Some table →
  databaseStorage (db_delete key s).2 = Some (mkDatabase (Some true))
  ∧ prisma (db_delete key s).2 = Some (delete key table).
Proof.
  intros Hd Hok Hp.
  destruct (db_usable s d table Hd Hok Hp) as (s1 & Hc & _ & _ & Hp1 & Hd1).
  unfold db_delete, bind. rewrite Hc. simpl. unfold get_state, modify.
  rewrite Hp1. simpl. by rewrite Hd1.
Qed.

(** X12. On a reachable table, a record written through the database
    storage is read back with the same count and first attempt and with its
    lock, a falsy lock being stored as none; a deleted key reads as absent;
    other keys are not affected by the write. *)
Theorem database_write_then_read key other r now s d table :
  databaseStorage s = Some d →
  tableExists d ≠ Some false →
  prisma s = Some table →
  (store_get TheDatabaseStorage key
     (store_set TheDatabaseStorage key r now s).2).1
  = Some (mkAttempt (count r) (firstAttempt r) (stored_lock r))
  ∧ (store_get TheDatabaseStorage key
       (store_delete TheDatabaseStorage key s).2).1 = None
  ∧ (key ≠ other →
     (store_get TheDatabaseStorage other
        (store_set TheDatabaseStorage key r now s).2).1
     = (store_get TheDatabaseStorage other s).1).
Proof.
  intros Hd Hok Hp. unfold store_get, store_set, store_delete.
  destruct (db_set_usable key r now s d table Hd Hok Hp) as [Hd1 Hp1].
  destruct (db_delete_usable key s d table Hd Hok Hp) as [Hd2 Hp2].
  rewrite !(db_get_usable _ _ _ _ Hd1 ltac:(done) Hp1).
  rewrite (db_get_usable _ _ _ _ Hd2 ltac:(done) Hp2).
  rewrite (db_get_usable _ _ _ _ Hd Hok Hp).
  rewrite lookup_insert_eq, lookup_delete_eq.
  split; [done|]. split; [done|].
  intros Hne. by rewrite lookup_insert_ne.
Qed.

Lemma db_stale_matches now row :
  db_lockedUntil row ≠ Some 0 →
  db_stale now row = stale now (of_db row).
Proof.
  intros Hnz. unfold db_stale, stale, truthy, of_db. simpl.
  destruct (db_lockedUntil row) as [l|]; simpl.
  - destruct (l =? 0) eqn:Hz; [apply Z.eqb_eq in Hz; congruence|].
    simpl. lia.
  - rewrite orb_false_r. lia.
Qed.

(** X13. The sweep of the database storage removes the rows that the sweep
    of the in-memory storage would remove from the same records, as long as
    no row carries the lock 0 (which [set] never writes). *)
Theorem database_sweep_matches_memory now s d table :
  databaseStorage s = Some d →
  tableExists d ≠ Some false →
  prisma s = Some table →
  (∀ key row, table !! key = Some row → db_lockedUntil row ≠ Some 0) →
  ∃ table', prisma (db_cleanup now s).2 = Some table'
            ∧ of_db <$> table'
              = attempts (mem_cleanup now (mkMemory (of_db <$> table))).
Proof.
  intros Hd Hok Hp Hnz.
  destruct (db_usable s d table Hd Hok Hp) as (s1 & Hc & _ & _ & Hp1 & _).
  unfold db_cleanup. unfold bind at 1. rewrite Hc. simpl.
  unfold bind, get_state, modify. rewrite Hp1. simpl.
  eexists; split; [done|].
  rewrite map_filter_fmap. f_equal.
  apply map_filter_ext. intros key row Hrow. simpl.
  by rewrite (db_stale_matches now row (Hnz key row Hrow)).
Qed.

(** What [set] writes never carries the lock 0. *)
Lemma stored_lock_nonzero r : stored_lock r ≠ Some 0.
Proof.
  unfold stored_lock, truthy.
  destruct (lockedUntil r) as [l|]; [|done].
  destruct (l =? 0) eqn:Hz; simpl; [done|].
  apply Z.eqb_neq in Hz. congruence.
Qed.

End Database.

(** *** Concrete runs *)

Import Samples MoreSamples.
Local Abbreviation lower := ascii_toLowerCase.

(** X1 after three failures: two attempts remain. *)
Lemma remaining_attempts_count_down_witness :
  (checkRateLimit lower testEmail 2000
     (recordFailures lower memory testEmail [1000; 1001; 1002]
        (initial None)).2).1
  = not_limited (MAX_ATTEMPTS - 3).
Proof.
  apply (remaining_attempts_count_down lower memory testEmail 1000
           [1001; 1002] 2000 (initial None)).
  - discriminate.
  - reflexivity.
  - reflexivity.
  - repeat constructor; vm_compute; discriminate.
  - vm_compute. discriminate.
Defined.

(** X2 after two failures and fifteen minutes and a millisecond. *)
Lemma lapsed_window_resets_witness :
  let s1 := (recordFailures lower memory testEmail [1000; 1001]
               (initial None)).2 in
  (checkRateLimit lower testEmail 901001 s1).1 = not_limited MAX_ATTEMPTS
  ∧ attempts_of (checkRateLimit lower testEmail 901001 s1).2
      !! lower testEmail = None
  ∧ attempts_of
      (recordFailedAttempt lower memory testEmail 901002
         (checkRateLimit lower testEmail 901001 s1).2).2
      !! lower testEmail
    = Some (fresh 901002).
Proof.
  apply (lapsed_window_resets lower memory testEmail 1000 [1001] 901001
           901002 (initial None)).
  - discriminate.
  - reflexivity.
  - reflexivity.
  - repeat constructor; vm_compute; discriminate.
  - reflexivity.
Defined.

(** X3 after five failures, once the thirty minutes have passed. *)
Lemma expired_lock_readmits_witness :
  let s1 := (recordFailures lower memory testEmail
               [1000; 1001; 1002; 1003; 1004] (initial None)).2 in
  (checkRateLimit lower testEmail 1801004 s1).1 = not_limited MAX_ATTEMPTS
  ∧ attempts_of (checkRateLimit lower testEmail 1801004 s1).2
      !! lower testEmail = None.
Proof.
  apply (expired_lock_readmits lower memory testEmail 1000
           [1001; 1002; 1003; 1004] 1004 1801004 (initial None)).
  - discriminate.
  - reflexivity.
  - reflexivity.
  - reflexivity.
  - repeat constructor; vm_compute; discriminate.
  - lia.
  - vm_compute. discriminate.
Defined.

(** X4 on the locked record of the tests. *)
Lemma check_twice_same_witness :
  (checkRateLimit lower testEmail 5000
     (checkRateLimit lower testEmail 5000 locked_in_memory).2).1
  = (checkRateLimit lower testEmail 5000 locked_in_memory).1
  ∧ attempts_of
      (checkRateLimit lower testEmail 5000
         (checkRateLimit lower testEmail 5000 locked_in_memory).2).2
    = attempts_of (checkRateLimit lower testEmail 5000 locked_in_memory).2.
Proof.
  apply (check_twice_same lower testEmail 5000 locked_in_memory). lia.
Defined.

(** X5 with a second identity. *)
Lemma other_identities_untouched_witness :
  (checkRateLimit lower "Other@Example.com" 5000
     (recordFailedAttempt lower memory testEmail 4500 locked_in_memory).2).1
  = (checkRateLimit lower "Other@Example.com" 5000 locked_in_memory).1
  ∧ (checkRateLimit lower "Other@Example.com" 5000
       (clearAttempts lower memory testEmail locked_in_memory).2).1
    = (checkRateLimit lower "Other@Example.com" 5000 locked_in_memory).1
  ∧ (checkRateLimit lower "Other@Example.com" 5000
       (checkRateLimit lower testEmail 4500 locked_in_memory).2).1
    = (checkRateLimit lower "Other@Example.com" 5000 locked_in_memory).1.
Proof.
  apply (other_identities_untouched lower memory testEmail
           "Other@Example.com" 4500 5000 locked_in_memory).
  - discriminate.
  - vm_compute. discriminate.
Defined.

(** X6: a sweep at 1000000 keeps the lock that runs until 1804000. *)
Lemma sweep_keeps_lock_witness :
  attempts_of (cleanupTick 1000000 locked_in_memory).2 !! lower testEmail
  = Some (mkAttempt 5 0 (Some 1804000))
  ∧ (checkRateLimit lower testEmail 900001
       (cleanupTick 1000000 locked_in_memory).2).1
    = limited (ceil_div (1804000 - 900001) 1000).
Proof.
  apply (sweep_keeps_lock lower testEmail 1000000 900001 1804000
           (mkAttempt 5 0 (Some 1804000)) locked_in_memory).
  - discriminate.
  - vm_compute. reflexivity.
  - reflexivity.
  - lia.
Defined.

(** X7: a sweep after the lock has run out. *)
Lemma sweep_is_transparent_witness :
  (checkRateLimit lower testEmail 2000001
     (cleanupTick 2000000 locked_in_memory).2).1
  = (checkRateLimit lower testEmail 2000001 locked_in_memory).1.
Proof.
  apply (sweep_is_transparent lower testEmail 2000000 2000001
           locked_in_memory).
  - lia.
  - intros r Hr. vm_compute in Hr. injection Hr as <-.
    vm_compute. discriminate.
Defined.

(** X8 on a database-backed module. *)
Lemma backend_is_permanent_witness :
  storage
    (run lower auto
       [CallRecord testEmail 10; CallCheckAsync testEmail 11;
        CallClear testEmail; TimerTick 12]
       database_after_failures).2
  = Some TheDatabaseStorage.
Proof.
  apply (backend_is_permanent lower auto
           [CallRecord testEmail 10; CallCheckAsync testEmail 11;
            CallClear testEmail; TimerTick 12]
           TheDatabaseStorage database_after_failures).
  reflexivity.
Defined.

(** X10 on the module that the synchronous procedures had locked. *)
Lemma first_async_call_starts_empty_witness :
  (checkRateLimit lower testEmail 5000 locked_in_memory).1 = limited 1799
  ∧ (checkRateLimitAsync lower memory testEmail 5000 locked_in_memory).1
    = not_limited MAX_ATTEMPTS
  ∧ attempts_of
      (checkRateLimitAsync lower memory testEmail 5000 locked_in_memory).2
    = ∅
  ∧ attempts_of
      (recordFailedAttemptAsync lower memory testEmail 5000
         locked_in_memory).2
    = {[ lower testEmail := fresh 5000 ]}.
Proof.
  split; [vm_compute; reflexivity|].
  apply (first_async_call_starts_empty lower memory testEmail 5000
           locked_in_memory).
  - reflexivity.
  - left. reflexivity.
Defined.

(** X11 on a table that came back with a locked row. *)
Lemma failed_probe_disables_database_witness :
  Forall (λ o, o = None ∨ o = Some (not_limited MAX_ATTEMPTS))
    (run lower database
       [CallCheckAsync testEmail 5000; CallRecordAsync testEmail 5001;
        CallCheck testEmail 5002; CallClearAsync testEmail]
       database_back_after_failed_probe).1
  ∧ prisma
      (run lower database
         [CallCheckAsync testEmail 5000; CallRecordAsync testEmail 5001;
          CallCheck testEmail 5002; CallClearAsync testEmail]
         database_back_after_failed_probe).2
    = prisma database_back_after_failed_probe.
Proof.
  apply (failed_probe_disables_database lower database
           [CallCheckAsync testEmail 5000; CallRecordAsync testEmail 5001;
            CallCheck testEmail 5002; CallClearAsync testEmail]
           database_back_after_failed_probe).
  split; reflexivity.
Defined.

(** X12 with a record whose lock is the falsy 0. *)
Lemma database_write_then_read_witness :
  (store_get TheDatabaseStorage "a@b.c"
     (store_set TheDatabaseStorage "a@b.c" (mkAttempt 2 1000 (Some 0)) 3000
        database_with_locked_row).2).1
  = Some (mkAttempt 2 1000 None)
  ∧ (store_get TheDatabaseStorage "a@b.c"
       (store_delete TheDatabaseStorage "a@b.c"
          database_with_locked_row).2).1 = None
  ∧ ("a@b.c" ≠ "test@example.com" →
     (store_get TheDatabaseStorage "test@example.com"
        (store_set TheDatabaseStorage "a@b.c" (mkAttempt 2 1000 (Some 0))
           3000 database_with_locked_row).2).1
     = (store_get TheDatabaseStorage "test@example.com"
          database_with_locked_row).1).
Proof.
  apply (database_write_then_read "a@b.c" "test@example.com"
           (mkAttempt 2 1000 (Some 0)) 3000 database_with_locked_row
           (mkDatabase (Some true))
           {[ "test@example.com" := mkDbRecord 5 0 (Some 1804000) 4000 ]}).
  - reflexivity.
  - discriminate.
  - reflexivity.
Defined.

(** X13 on the table with one locked row, swept after the lock ran out. *)
Lemma database_sweep_matches_memory_witness :
  ∃ table', prisma (db_cleanup 2000000 database_with_locked_row).2
            = Some table'
            ∧ of_db <$> table'
              = attempts
                  (mem_cleanup 2000000
                     (mkMemory
                        (of_db <$>
                           ({[ "test@example.com" :=
                                 mkDbRecord 5 0 (Some 1804000) 4000 ]}
                            : gmap string DbRateLimitRecord)))).
Proof.
  apply (database_sweep_matches_memory 2000000 database_with_locked_row
           (mkDatabase (Some true))
           {[ "test@example.com" := mkDbRecord 5 0 (Some 1804000) 4000 ]}).
  - reflexivity.
  - discriminate.
  - reflexivity.
  - intros key row Hrow. apply lookup_singleton_Some in Hrow as [_ <-].
    discriminate.
Defined.

(** X14 on an initialised in-memory module with two failures on record. *)
Lemma async_calls_are_interchangeable_witness :
  run lower memory
    [CallRecordAsync testEmail 3000; CallCheckAsync testEmail 4000;
     CallClearAsync testEmail; CallCheck testEmail 5000]
    memory_after_two_failures
  = run lower memory
      [CallRecord testEmail 3000; CallCheck testEmail 4000;
       CallClear testEmail; CallCheck testEmail 5000]
      memory_after_two_failures.
Proof.
  apply (async_calls_are_interchangeable lower memory
           [CallRecordAsync testEmail 3000; CallCheckAsync testEmail 4000;
            CallClearAsync testEmail; CallCheck testEmail 5000]
           memory_after_two_failures).
  reflexivity.
Defined.

End RateLimitMore.

(** * Further properties of the unlock form *)

Module PasswordPromptMore.
Import PasswordPrompt PasswordPromptSessions PasswordPromptFacts.

Lemma ceil_div_nonpositive a : a ≤ 0 → ceil_div a 1000 ≤ 0.
Proof.
  intros Ha. unfold ceil_div.
  assert (0 ≤ - a / 1000) by (apply Z.div_pos; lia). lia.
Qed.

(** X15. The countdown shown by the form is never negative, and it is
    positive (which disables the input and the button) exactly while the
    lock that [isRateLimited] tests is active. *)
Theorem countdown_runs_while_locked now c :
  0 ≤ remainingLockoutTime now c
  ∧ (0 < remainingLockoutTime now c ↔ locked_at now (lockedUntil c) = true).
Proof.
  unfold remainingLockoutTime, locked_at, truthy.
  destruct (lockedUntil c) as [l|]; simpl; [|split; [lia|split; [lia|done]]].
  destruct (l =? 0); simpl; [split; [lia|split; [lia|done]]|].
  split; [lia|]. split.
  - intros Hpos. apply Z.ltb_lt.
    destruct (Z.le_gt_cases (l - now) 0) as [Hle|Hgt]; [|lia].
    pose proof (ceil_div_nonpositive (l - now) Hle). lia.
  - intros Hlt. apply Z.ltb_lt in Hlt.
    pose proof (ceil_div_positive (l - now)). lia.
Qed.

Lemma recent_all T now (times : list Z) :
  now < T + RATE_LIMIT_WINDOW_MS →
  Forall (λ t, T ≤ t) times →
  recent now times = times.
Proof.
  intros Hnow. unfold recent. induction 1 as [|t rest Ht _ IH]; [done|].
  rewrite filter_cons_True by lia. by rewrite IH.
Qed.

Lemma recent_recent now (times : list Z) :
  recent now (recent now times) = recent now times.
Proof.
  unfold recent. induction times as [|t rest IH]; [done|].
  destruct (decide (now - t < RATE_LIMIT_WINDOW_MS)) as [Hin|Hout].
  - rewrite filter_cons_True by done. rewrite filter_cons_True by done.
    by rewrite IH.
  - by rewrite filter_cons_False.
Qed.

Lemma setItem_accepted key value st :
  setItem key value st ≠ inl thrown →
  setItem key value st
  = inr (mkWebStorage (<[key := value]> (items st)) false (refuses st)).
Proof.
  unfold setItem. destruct (denied st); [done|].
  by destruct (refuses st key value).
Qed.

Section Form.

Variable trim : string → string.
Variable JSON_stringify : RateLimitState → string.
Variable JSON_parse : string → option RateLimitState.
Variable base64ToKey : string → option Key.
Variable deriveKeyFromPassword : string → Key → Z → option Key.
Variable combineKeys : Key → Key → option Key.
Variable decrypt : string → Key → option string.
Variable keyToBase64 : Key → string.

Local Abbreviation handle :=
  (handleSubmit trim base64ToKey deriveKeyFromPassword combineKeys decrypt
     keyToBase64).
Local Abbreviation derive := (deriveFinalKey base64ToKey deriveKeyFromPassword
                            combineKeys).
Local Abbreviation wrong :=
  (wrong_password trim base64ToKey deriveKeyFromPassword combineKeys decrypt).
Local Abbreviation submits :=
  (submitAll trim JSON_stringify base64ToKey deriveKeyFromPassword
     combineKeys decrypt keyToBase64).
Local Abbreviation rendered :=
  (submit trim JSON_stringify base64ToKey deriveKeyFromPassword combineKeys
     decrypt keyToBase64).
Local Abbreviation stored := (persisted JSON_stringify).
Local Abbreviation takes := (accepts JSON_stringify).

(** X16. A submission that passes the blank and lockout tests has one of
    two outcomes.  Either the key reached [onSuccess], which returned, and
    the form shows no error; or, whatever step failed (the salt, the
    derivation, the combination, the probe, the session-scoped write, the
    continuation), the form ends in one and the same state: one more
    attempt stamped with the failure's clock reading, the invalid-password
    error, an empty password field, not loading. *)
Theorem submission_succeeds_or_counts_one_failure p clock c b :
  trim (password c) ≠ "" →
  (isRateLimited (now_check clock) c).1 = false →
  let c2 :=
    setError None (setIsLoading true (isRateLimited (now_check clock) c).2) in
  ((handle p clock c b).1.1 = setIsLoading false c2
   ∧ ∃ key, last (handle p clock c b).2 = Some (EvOnSuccess key)
            ∧ onSuccess p key = true)
  ∨ (handle p clock c b).1.1
    = setIsLoading false (recordInvalid (now_failure clock) c2).
Proof.
  intros Hpw Hlim c2. subst c2. unfold handleSubmit.
  rewrite bool_decide_eq_false_2 by done.
  destruct (isRateLimited (now_check clock) c) as [lim c1].
  simpl in Hlim. subst lim. cbn [snd].
  unfold attemptUnlock.
  destruct (derive p (password c)) as [[[passwordKey finalKey]|] trace];
    [|by right].
  destruct (verify decrypt (encryptedGroupName p) finalKey)
    as [[key|] trace_v]; [|by right].
  unfold persistAndContinue.
  destruct (setItem (SESSION_PWD_KEY_PREFIX +:+ groupId p)
              (keyToBase64 passwordKey) _) as [[]|ss]; [by right|].
  destruct (onSuccess p key) eqn:Hcont; [|by right].
  left. split; [done|]. exists key. split; [|done].
  cbn [fst snd]. by rewrite !app_assoc, last_snoc.
Qed.

(** What [handleSubmit] itself does with a wrong password: it counts the
    failure and makes no storage write of its own. *)
Lemma wrong_password_outcome p clock pw c b :
  wrong p pw →
  (isRateLimited (now_check clock) (setPassword pw c)).1 = false →
  let r := handle p clock (setPassword pw c) b in
  attempts r.1.1 = recent (now_check clock) (attempts c) ++ [now_failure clock]
  ∧ error r.1.1 = Some errors_invalid
  ∧ password r.1.1 = ""
  ∧ isLoading r.1.1 = false
  ∧ lockedUntil r.1.1 = lockedUntil c
  ∧ r.1.2 = b
  ∧ Forall (λ e, ∀ key, e ≠ EvOnSuccess key) r.2.
Proof.
  intros (Hpw & passwordKey & finalKey & trace & ciphertext
          & Hderive & Hprobe & Hne & Hdec) Hlim r. subst r.
  unfold handleSubmit. cbn [password setPassword].
  rewrite bool_decide_eq_false_2 by done.
  unfold isRateLimited in *. cbn [lockedUntil attempts setPassword] in *.
  destruct (locked_at (now_check clock) (lockedUntil c)); [done|].
  simpl in Hlim. rewrite Hlim.
  unfold attemptUnlock. rewrite Hderive.
  unfold verify. rewrite Hprobe.
  rewrite bool_decide_eq_false_2 by done. rewrite Hdec. simpl.
  repeat split; try done.
  apply Forall_app. split; [|by repeat constructor].
  clear -Hderive. unfold deriveFinalKey in Hderive.
  repeat case_match; simplify_eq; by repeat constructor.
Qed.

(** The persist effect writes under the lockout key of the group and
    nowhere else; when the write is accepted, the state is stored. *)
Lemma persistEffect_only_lockout p c b :
  only_lockout_written p b (persistEffect JSON_stringify p c b).
Proof.
  unfold persistEffect, saveRateLimitState, only_lockout_written,
    same_except, setItem.
  destruct (denied (localStorage b) || refuses (localStorage b) _ _);
    cbn [localStorage sessionStorage denied refuses items].
  - done.
  - repeat split; try done. intros k Hk. by rewrite lookup_insert_ne.
Qed.

Lemma persistEffect_stored p c b :
  takes p c b → stored p c (persistEffect JSON_stringify p c b).
Proof.
  unfold accepts, persisted, persistEffect, saveRateLimitState.
  intros Hok. rewrite (setItem_accepted _ _ _ Hok).
  unfold getItem. cbn [localStorage denied items].
  by rewrite lookup_insert_eq.
Qed.

Lemma only_lockout_written_refl p b : only_lockout_written p b b.
Proof. by repeat split. Qed.

Lemma only_lockout_written_trans p b1 b2 b3 :
  only_lockout_written p b1 b2 →
  only_lockout_written p b2 b3 →
  only_lockout_written p b1 b3.
Proof.
  intros (Hs1 & Hd1 & Hr1 & Hi1) (Hs2 & Hd2 & Hr2 & Hi2).
  repeat split; try congruence.
  intros k Hk. by rewrite Hi2, Hi1.
Qed.

(** A storage that differs under the lockout key only takes the same
    writes. *)
Lemma takes_after p c b b' :
  only_lockout_written p b b' → takes p c b → takes p c b'.
Proof.
  intros (_ & Hd & Hr & _). unfold accepts, setItem. rewrite Hd, Hr.
  by destruct (denied (localStorage b) || refuses (localStorage b) _ _).
Qed.

(** X17. A password under whose key the probe does not decrypt, submitted
    while the lockout state allows an attempt: the form records the
    failure's clock reading after the recent attempts, shows the
    invalid-password error, empties the password field, leaves the lock as
    it was and never calls [onSuccess].  No key is stored: the session
    storage is as it was, and the local storage changes under the lockout
    key of the group only, where the persist effect that follows the
    submission stores the new lockout state when the write is accepted. *)
Theorem wrong_password_counts_once p clock pw c b :
  wrong p pw →
  (isRateLimited (now_check clock) (setPassword pw c)).1 = false →
  let r := rendered p clock (setPassword pw c) b in
  attempts r.1.1 = recent (now_check clock) (attempts c) ++ [now_failure clock]
  ∧ error r.1.1 = Some errors_invalid
  ∧ password r.1.1 = ""
  ∧ isLoading r.1.1 = false
  ∧ lockedUntil r.1.1 = lockedUntil c
  ∧ only_lockout_written p b r.1.2
  ∧ (takes p r.1.1 b → stored p r.1.1 r.1.2)
  ∧ Forall (λ e, ∀ key, e ≠ EvOnSuccess key) r.2.
Proof.
  intros Hwrong Hlim r. subst r.
  destruct (wrong_password_outcome p clock pw c b Hwrong Hlim)
    as (Hatt & Herr & Hpw & Hload & Hlock & Hb & Htrace).
  unfold submit.
  destruct (handle p clock (setPassword pw c) b) as [[c' b'] trace].
  cbn [fst snd] in *. subst b'.
  do 5 (split; [done|]).
  split; [apply persistEffect_only_lockout|].
  split; [apply persistEffect_stored|done].
Qed.

Lemma submits_wrong_passwords p T subs : ∀ c b,
  lockedUntil c = None →
  Forall (λ t, T ≤ t) (attempts c) →
  Z.of_nat (length (attempts c)) + Z.of_nat (length subs)
    ≤ RATE_LIMIT_ATTEMPTS →
  Forall (λ sub, wrong p sub.1 ∧ within T sub.2) subs →
  let r := submits p subs c b in
  lockedUntil r.1 = None
  ∧ Forall (λ t, T ≤ t) (attempts r.1)
  ∧ length (attempts r.1) = (length (attempts c) + length subs)%nat
  ∧ only_lockout_written p b r.2.
Proof.
  induction subs as [|[pw clock] rest IH]; intros c b Hlock Hall Hlen Hsubs.
  - simpl. repeat split; try done.
  - apply Forall_cons in Hsubs as [[Hwrong Hin] Hsubs].
    destruct Hin as (Hcheck & _ & Hfail). simpl in Hwrong, Hcheck, Hfail.
    assert (Hrecent : recent (now_check clock) (attempts c) = attempts c)
      by (apply (recent_all T); [lia|done]).
    assert (Hlim : (isRateLimited (now_check clock) (setPassword pw c)).1
                   = false).
    { unfold isRateLimited. cbn [lockedUntil attempts setPassword].
      rewrite Hlock. simpl. rewrite Hrecent.
      simpl in Hlen. unfold RATE_LIMIT_ATTEMPTS in *. lia. }
    destruct (wrong_password_outcome p clock pw c b Hwrong Hlim)
      as (Hatt & _ & _ & _ & Hl & Hb & _).
    cbn [submitAll]. unfold submit.
    destruct (handle p clock (setPassword pw c) b) as [[c' b'] trace'].
    cbn [fst snd] in Hatt, Hl, Hb. subst b'.
    rewrite Hrecent in Hatt.
    destruct (IH c' (persistEffect JSON_stringify p c' b))
      as (H1 & H2 & H3 & H4); try done.
    + congruence.
    + rewrite Hatt. apply Forall_app. split; [done|].
      repeat constructor. lia.
    + rewrite Hatt, length_app. simpl in *. lia.
    + split; [done|]. split; [done|]. split.
      * rewrite H3, Hatt, length_app. simpl. lia.
      * eapply only_lockout_written_trans; [|exact H4].
        apply persistEffect_only_lockout.
Qed.

(** X18. On a form without attempts and without lock, [RATE_LIMIT_ATTEMPTS]
    wrong passwords submitted within one window are each counted; the next
    submission in that window, whatever its password, makes no call to key
    derivation or decryption, shows the too-many-attempts error and starts
    a lockout of [LOCKOUT_DURATION_MS].  Through all six submissions no
    key is stored: the session storage is as it was, and the local storage
    changes under the lockout key of the group only, where the persist
    effect stores the lockout once the write is accepted. *)
Theorem wrong_passwords_lock_the_form p T subs pw clock c b :
  attempts c = [] →
  lockedUntil c = None →
  Z.of_nat (length subs) = RATE_LIMIT_ATTEMPTS →
  Forall (λ sub, wrong p sub.1 ∧ within T sub.2) subs →
  trim pw ≠ "" →
  within T clock →
  let c5 := (submits p subs c b).1 in
  let b5 := (submits p subs c b).2 in
  let r := rendered p clock (setPassword pw c5) b5 in
  Z.of_nat (length (attempts c5)) = RATE_LIMIT_ATTEMPTS
  ∧ only_lockout_written p b b5
  ∧ r.2 = []
  ∧ error r.1.1 = Some errors_tooManyAttempts
  ∧ lockedUntil r.1.1 = Some (now_lockout clock + LOCKOUT_DURATION_MS)
  ∧ only_lockout_written p b r.1.2
  ∧ (takes p r.1.1 b → stored p r.1.1 r.1.2).
Proof.
  intros Hatt Hlock Hlen Hsubs Hpw (Hcheck & _ & _) c5 b5 r.
  destruct (submits_wrong_passwords p T subs c b) as (H1 & H2 & H3 & H4);
    try done.
  { by rewrite Hatt. }
  { rewrite Hatt. simpl. lia. }
  fold c5 in H1, H2, H3. fold b5 in H4.
  rewrite Hatt in H3. simpl in H3.
  assert (Hfull : Z.of_nat (length (attempts c5)) = RATE_LIMIT_ATTEMPTS)
    by (rewrite H3; done).
  split; [done|]. split; [done|].
  assert (handle p clock (setPassword pw c5) b5
          = (setError (Some errors_tooManyAttempts)
               (setLockedUntil
                  (Some (now_lockout clock + LOCKOUT_DURATION_MS))
                  (setAttempts (attempts c5) (setPassword pw c5))),
             b5, [])) as Hrun.
  { unfold handleSubmit. cbn [password setPassword].
    rewrite bool_decide_eq_false_2 by done.
    unfold isRateLimited. cbn [lockedUntil attempts setPassword].
    rewrite H1. simpl.
    rewrite (recent_all T) by (done || lia).
    rewrite Hfull. simpl. done. }
  subst r. unfold submit. rewrite Hrun. cbn [fst snd].
  do 3 (split; [done|]).
  split.
  - eapply only_lockout_written_trans; [exact H4|].
    apply persistEffect_only_lockout.
  - intros Hok. apply persistEffect_stored. by eapply takes_after.
Qed.

(** X19. What the form persists survives a reload: when the stored JSON
    text parses back and the write is accepted, the form mounted at [now]
    holds the lock if it is still active and the attempts of the last
    window, and its lockout state answers as that of the form before the
    reload. *)
Theorem reload_keeps_lockout p now c b :
  let state := mkRateLimitState (attempts c) (lockedUntil c) in
  JSON_parse (JSON_stringify state) = Some state →
  JSON_stringify state ≠ "" →
  setItem (getStorageKey (groupId p)) (JSON_stringify state) (localStorage b)
    ≠ inl thrown →
  let c' := reload JSON_stringify JSON_parse p now c b in
  lockedUntil c'
  = (if locked_at now (lockedUntil c) then lockedUntil c else None)
  ∧ attempts c' = recent now (attempts c)
  ∧ (isRateLimited now c').1 = (isRateLimited now c).1.
Proof.
  intros state Hparse Hne Hset c'.
  assert (Hload : loadRateLimitState JSON_parse (groupId p)
                    (persistEffect JSON_stringify p c b) = Some state).
  { unfold persistEffect, saveRateLimitState, loadRateLimitState.
    fold state. unfold setItem, getItem in *.
    destruct (denied (localStorage b)) eqn:Hd; [done|].
    destruct (refuses (localStorage b) _ _); [done|]. simpl.
    rewrite lookup_insert_eq.
    by rewrite bool_decide_eq_false_2. }
  assert (Hlock : lockedUntil c'
    = if locked_at now (lockedUntil c) then lockedUntil c else None).
  { subst c'. unfold reload, restoreEffect. rewrite Hload. simpl.
    unfold locked_at, truthy.
    destruct (lockedUntil c) as [l|]; simpl;
      [|by destruct (Z.of_nat (length (recent now (attempts c))) >? 0)].
    rewrite !Z.gtb_ltb.
    destruct (negb (l =? 0) && (now <? l));
      by destruct (0 <? Z.of_nat (length (recent now (attempts c)))). }
  assert (Hatt : attempts c' = recent now (attempts c)).
  { subst c'. unfold reload, restoreEffect. rewrite Hload. simpl.
    destruct (Z.of_nat (length (recent now (attempts c))) >? 0) eqn:Hpos;
      [done|].
    destruct (recent now (attempts c)); [|discriminate].
    by destruct (truthy (lockedUntil c) && _). }
  split; [done|]. split; [done|].
  unfold isRateLimited. rewrite Hlock, Hatt.
  destruct (locked_at now (lockedUntil c)) eqn:Hl; simpl.
  - by rewrite Hl.
  - by rewrite recent_recent.
Qed.

(** Mounting restores nothing when the stored state cannot be had:
    the storage throws, holds nothing or an empty string under the key, or
    holds text that does not parse. *)
Lemma restore_fails_open p now c b :
  getItem (getStorageKey (groupId p)) (localStorage b) = inl thrown
  ∨ getItem (getStorageKey (groupId p)) (localStorage b) = inr None
  ∨ getItem (getStorageKey (groupId p)) (localStorage b) = inr (Some "")
  ∨ (∃ text, getItem (getStorageKey (groupId p)) (localStorage b)
             = inr (Some text) ∧ JSON_parse text = None) →
  restoreEffect JSON_parse p now c b = c.
Proof.
  unfold restoreEffect, loadRateLimitState.
  intros [-> | [-> | [-> | (text & -> & Hparse)]]]; try done.
  destruct (bool_decide (text = "")); [done|]. by rewrite Hparse.
Qed.

(** X20. When the probe is accepted and both writes are, the storage holds
    the encoded final key under the group's local key and the encoded
    password key under the group's session key, whether or not the
    continuation then returns. *)
Theorem verified_keys_are_persisted
    p clock c b passwordKey finalKey derivation trace_v :
  trim (password c) ≠ "" →
  (isRateLimited (now_check clock) c).1 = false →
  derive p (password c) = (Some (passwordKey, finalKey), derivation) →
  verify decrypt (encryptedGroupName p) finalKey
  = (Verified finalKey, trace_v) →
  setItem (ENCRYPTION_KEY_PREFIX +:+ groupId p) (keyToBase64 finalKey)
    (localStorage b) ≠ inl thrown →
  setItem (SESSION_PWD_KEY_PREFIX +:+ groupId p) (keyToBase64 passwordKey)
    (sessionStorage b) ≠ inl thrown →
  let b' := (handle p clock c b).1.2 in
  getItem (ENCRYPTION_KEY_PREFIX +:+ groupId p) (localStorage b')
  = inr (Some (keyToBase64 finalKey))
  ∧ getItem (SESSION_PWD_KEY_PREFIX +:+ groupId p) (sessionStorage b')
    = inr (Some (keyToBase64 passwordKey)).
Proof.
  intros Hpw Hlim Hderive Hverify Hlocal Hsession b'. subst b'.
  unfold handleSubmit. rewrite bool_decide_eq_false_2 by done.
  destruct (isRateLimited (now_check clock) c) as [lim c1].
  simpl in Hlim. subst lim.
  unfold attemptUnlock. rewrite Hderive, Hverify.
  unfold persistAndContinue.
  rewrite (setItem_accepted _ _ _ Hlocal). cbn [localStorage sessionStorage].
  rewrite (setItem_accepted _ _ _ Hsession).
  destruct (onSuccess p finalKey); cbn [fst snd localStorage sessionStorage];
    unfold getItem; cbn [denied items]; by rewrite !lookup_insert_eq.
Qed.

End Form.

(** *** Concrete submissions *)

Import Samples MoreSamples.

Local Abbreviation toy_handleSubmit :=
  (handleSubmit ascii_trim toy_base64ToKey toy_derive toy_combine toy_decrypt
     toy_keyToBase64).
Local Abbreviation toy_wrong :=
  (wrong_password ascii_trim toy_base64ToKey toy_derive toy_combine
     toy_decrypt).
Local Abbreviation toy_submitAll :=
  (submitAll ascii_trim show_state toy_base64ToKey toy_derive toy_combine
     toy_decrypt toy_keyToBase64).
Local Abbreviation toy_submit :=
  (submit ascii_trim show_state toy_base64ToKey toy_derive toy_combine
     toy_decrypt toy_keyToBase64).

(** X16 on the right password with a session storage that throws: the
    second outcome. *)
Lemma submission_succeeds_or_counts_one_failure_witness :
  let c := typed "correct horse" [] None in
  let b := PasswordPrompt.mkBrowser empty_storage denied_storage in
  let c2 := setError None (setIsLoading true (isRateLimited 1000 c).2) in
  ((toy_handleSubmit protected_group (clock_at 1000) c b).1.1
   = setIsLoading false c2
   ∧ ∃ key, last (toy_handleSubmit protected_group (clock_at 1000) c b).2
            = Some (EvOnSuccess key)
            ∧ onSuccess protected_group key = true)
  ∨ (toy_handleSubmit protected_group (clock_at 1000) c b).1.1
    = setIsLoading false (recordInvalid 1000 c2).
Proof.
  apply (submission_succeeds_or_counts_one_failure ascii_trim
           toy_base64ToKey toy_derive toy_combine toy_decrypt
           toy_keyToBase64 protected_group (clock_at 1000)
           (typed "correct horse" [] None)
           (PasswordPrompt.mkBrowser empty_storage denied_storage)).
  - vm_compute. discriminate.
  - reflexivity.
Defined.

Lemma guess_is_wrong pw :
  ascii_trim pw ≠ "" →
  toy_decrypt
    (default "" (encryptedGroupName protected_group))
    (default [] (toy_derive pw (String.list_byte_of_string "c2FsdA==") 32))
  = None →
  toy_wrong protected_group pw.
Proof.
  intros Hpw Hdec. split; [done|].
  eexists _, _, _, _. split; [reflexivity|].
  split; [reflexivity|]. split; [|exact Hdec].
  vm_compute. discriminate.
Qed.

(** X17 on a first guess. *)
Lemma wrong_password_counts_once_witness :
  let r := toy_submit protected_group (clock_at 1000)
             (setPassword "guess 1" (typed "" [] None)) working_browser in
  attempts r.1.1 = recent 1000 [] ++ [1000]
  ∧ error r.1.1 = Some errors_invalid
  ∧ password r.1.1 = ""
  ∧ isLoading r.1.1 = false
  ∧ lockedUntil r.1.1 = None
  ∧ only_lockout_written protected_group working_browser r.1.2
  ∧ (accepts show_state protected_group r.1.1 working_browser →
     persisted show_state protected_group r.1.1 r.1.2)
  ∧ Forall (λ e, ∀ key, e ≠ EvOnSuccess key) r.2.
Proof.
  apply (wrong_password_counts_once ascii_trim show_state toy_base64ToKey
           toy_derive toy_combine toy_decrypt toy_keyToBase64 protected_group
           (clock_at 1000) "guess 1" (typed "" [] None) working_browser).
  - apply guess_is_wrong; [vm_compute; discriminate|vm_compute; reflexivity].
  - reflexivity.
Defined.

(** What the first guess leaves in local storage. *)
Example first_guess_is_persisted :
  getItem "password-lockout:g1"
    (localStorage
       (toy_submit protected_group (clock_at 1000)
          (setPassword "guess 1" (typed "" [] None)) working_browser).1.2)
  = inr (Some "{attempts:[1000],lockedUntil:null}").
Proof. vm_compute. reflexivity. Qed.

(** X18 on five guesses a second apart: the sixth submission, with the
    right password, is refused. *)
Lemma wrong_passwords_lock_the_form_witness :
  let c5 := (toy_submitAll protected_group five_guesses (typed "" [] None)
               working_browser).1 in
  let b5 := (toy_submitAll protected_group five_guesses (typed "" [] None)
               working_browser).2 in
  let r := toy_submit protected_group (clock_at 6000)
             (setPassword "correct horse" c5) b5 in
  Z.of_nat (length (attempts c5)) = RATE_LIMIT_ATTEMPTS
  ∧ only_lockout_written protected_group working_browser b5
  ∧ r.2 = []
  ∧ error r.1.1 = Some errors_tooManyAttempts
  ∧ lockedUntil r.1.1 = Some (6000 + LOCKOUT_DURATION_MS)
  ∧ only_lockout_written protected_group working_browser r.1.2
  ∧ (accepts show_state protected_group r.1.1 working_browser →
     persisted show_state protected_group r.1.1 r.1.2).
Proof.
  apply (wrong_passwords_lock_the_form ascii_trim show_state toy_base64ToKey
           toy_derive toy_combine toy_decrypt toy_keyToBase64 protected_group
           1000 five_guesses "correct horse" (clock_at 6000)
           (typed "" [] None) working_browser).
  - reflexivity.
  - reflexivity.
  - reflexivity.
  - repeat constructor;
      try (apply guess_is_wrong;
           [vm_compute; discriminate|vm_compute; reflexivity]);
      vm_compute; discriminate.
  - vm_compute. discriminate.
  - repeat constructor; vm_compute; discriminate.
Defined.

(** What the six submissions leave in local storage. *)
Example lockout_is_persisted :
  let c5 := (toy_submitAll protected_group five_guesses (typed "" [] None)
               working_browser).1 in
  let b5 := (toy_submitAll protected_group five_guesses (typed "" [] None)
               working_browser).2 in
  getItem "password-lockout:g1"
    (localStorage
       (toy_submit protected_group (clock_at 6000)
          (setPassword "correct horse" c5) b5).1.2)
  = inr (Some
      "{attempts:[1000,2000,3000,4000,5000],lockedUntil:306000}").
Proof. vm_compute. reflexivity. Qed.

(** X19 on a form locked until 400000 with three attempts, reloaded at
    100000: the lock and the attempt of the last minute come back. *)
Lemma reload_keeps_lockout_witness :
  let c := typed "" [1000; 2000; 70000] (Some 400000) in
  let c' := reload toy_stringify toy_parse legacy_group 100000 c
              working_browser in
  lockedUntil c' = (if locked_at 100000 (Some 400000) then Some 400000
                    else None)
  ∧ attempts c' = recent 100000 [1000; 2000; 70000]
  ∧ (isRateLimited 100000 c').1 = (isRateLimited 100000 c).1.
Proof.
  apply (reload_keeps_lockout toy_stringify toy_parse legacy_group 100000
           (typed "" [1000; 2000; 70000] (Some 400000)) working_browser).
  - reflexivity.
  - discriminate.
  - discriminate.
Defined.

(** X20 on the right password and working storage. *)
Lemma verified_keys_are_persisted_witness :
  let key := take 32 (String.list_byte_of_string "correct horsec2FsdA=="
                        ++ replicate 32 Byte.x00) in
  let b' := (toy_handleSubmit protected_group (clock_at 1000)
               (typed "correct horse" [] None) working_browser).1.2 in
  getItem (ENCRYPTION_KEY_PREFIX +:+ "g1") (localStorage b')
  = inr (Some (toy_keyToBase64 key))
  ∧ getItem (SESSION_PWD_KEY_PREFIX +:+ "g1") (sessionStorage b')
    = inr (Some (toy_keyToBase64 key)).
Proof.
  apply (verified_keys_are_persisted ascii_trim toy_base64ToKey toy_derive
           toy_combine toy_decrypt toy_keyToBase64 protected_group
           (clock_at 1000) (typed "correct horse" [] None) working_browser
           (take 32 (String.list_byte_of_string "correct horsec2FsdA=="
                       ++ replicate 32 Byte.x00))
           (take 32 (String.list_byte_of_string "correct horsec2FsdA=="
                       ++ replicate 32 Byte.x00))
           [EvDerive "correct horse"
              (String.list_byte_of_string "c2FsdA==") 32]
           [EvDecrypt
              (toy_keyToBase64
                 (take 32 (String.list_byte_of_string "correct horsec2FsdA=="
                             ++ replicate 32 Byte.x00)))
              (take 32 (String.list_byte_of_string "correct horsec2FsdA=="
                          ++ replicate 32 Byte.x00))]).
  - vm_compute. discriminate.
  - reflexivity.
  - reflexivity.
  - vm_compute. reflexivity.
  - discriminate.
  - discriminate.
Defined.

End PasswordPromptMore.

(** * Further properties of the tRPC middlewares *)

Module TrpcMore.
Import Trpc TrpcAuth.

(** X21. [adminProcedure] is the private-mode gate, then the checks of
    [publicProcedure] with the same errors, then the admin role. *)
Theorem adminProcedure_extends_publicProcedure isPrivateInstance session :
  adminProcedure isPrivateInstance session
  = if isPrivateInstance then
      match publicProcedure true session, session_user session with
      | Some e, _ => Some e
      | None, Some u => if isAdmin u then None else Some admin_required
      | None, None => None
      end
    else Some admin_only_in_private_mode.
Proof.
  unfold adminProcedure, publicProcedure.
  destruct isPrivateInstance; [|done]. simpl.
  destruct (session_user session) as [[[] [] []]|]; done.
Qed.

Lemma publicProcedure_admits isPrivateInstance session :
  publicProcedure isPrivateInstance session = None
  ↔ isPrivateInstance = false
    ∨ ∃ u, session_user session = Some u
           ∧ requiresTwoFactor u = false
           ∧ mustChangePassword u = false.
Proof.
  unfold publicProcedure.
  destruct isPrivateInstance; [|split; [by left|done]].
  destruct (session_user session) as [u|].
  - split.
    + intros H. right. exists u.
      destruct (requiresTwoFactor u); [discriminate H|].
      destruct (mustChangePassword u); [discriminate H|]. done.
    + intros [H|(u' & Hu & H2 & Hm)]; [discriminate H|].
      injection Hu as <-. by rewrite H2, Hm.
  - split; [done|]. intros [H|(u & H & _)]; discriminate H.
Qed.

Lemma adminProcedure_admits isPrivateInstance session :
  adminProcedure isPrivateInstance session = None
  ↔ isPrivateInstance = true
    ∧ ∃ u, session_user session = Some u
           ∧ requiresTwoFactor u = false
           ∧ mustChangePassword u = false
           ∧ isAdmin u = true.
Proof.
  unfold adminProcedure.
  destruct isPrivateInstance; [|split; [done|by intros [H _]]]. simpl.
  destruct (session_user session) as [u|].
  - split.
    + intros H. split; [done|]. exists u.
      destruct (requiresTwoFactor u); [discriminate H|].
      destruct (mustChangePassword u); [discriminate H|].
      destruct (isAdmin u); [done|discriminate H].
    + intros [_ (u' & Hu & H2 & Hm & Ha)].
      injection Hu as <-. by rewrite H2, Hm, Ha.
  - split; [done|]. intros [_ (u & H & _)]; discriminate H.
Qed.

(** X22. Who is let through: [publicProcedure] lets everyone through in
    public mode and, in private mode, the users who owe neither the second
    factor nor a password change; [adminProcedure] lets through, in private
    mode only, those among them who are admins. *)
Theorem middlewares_admit isPrivateInstance session :
  (publicProcedure isPrivateInstance session = None
   ↔ isPrivateInstance = false
     ∨ ∃ u, session_user session = Some u
            ∧ requiresTwoFactor u = false
            ∧ mustChangePassword u = false)
  ∧ (adminProcedure isPrivateInstance session = None
     ↔ isPrivateInstance = true
       ∧ ∃ u, session_user session = Some u
              ∧ requiresTwoFactor u = false
              ∧ mustChangePassword u = false
              ∧ isAdmin u = true).
Proof.
  split; [apply publicProcedure_admits|apply adminProcedure_admits].
Qed.

Lemma append_inv_head (s a b : string) : s +:+ a = s +:+ b → a = b.
Proof. induction s as [|c s IH]; simpl; [done|]. intros [=]. auto. Qed.

Lemma key_splits_at_first_colon op1 : ∀ op2 g1 g2,
  colon_free op1 = true →
  colon_free op2 = true →
  rate_limit_key op1 g1 = rate_limit_key op2 g2 →
  op1 = op2 ∧ g1 = g2.
Proof.
  unfold rate_limit_key.
  induction op1 as [|a op1 IH]; intros [|b op2] g1 g2 H1 H2 Hkey;
    simpl in H1, H2; unfold colon in *.
  - injection Hkey as Hkey. change (g1 = g2) in Hkey. by subst.
  - injection Hkey as Hb _. subst b.
    rewrite Ascii.eqb_refl in H2. discriminate H2.
  - injection Hkey as Ha _. subst a.
    rewrite Ascii.eqb_refl in H1. discriminate H1.
  - injection Hkey as Hab Hkey. subst b.
    apply andb_true_iff in H1 as [_ H1]. apply andb_true_iff in H2 as [_ H2].
    destruct (IH op2 g1 g2 H1 H2 Hkey) as [-> ->]. done.
Qed.

(** For one operation, different group ids give different keys. *)
Lemma rate_limit_key_inj_group operation g1 g2 :
  rate_limit_key operation g1 = rate_limit_key operation g2 → g1 = g2.
Proof.
  unfold rate_limit_key. intros H.
  apply (append_inv_head operation) in H.
  by apply (append_inv_head ":") in H.
Qed.

(** X23. Limiter keys do not collide: for operation names without a colon,
    as the three in use, equal keys mean the same operation and the same
    group id. *)
Theorem rate_limit_keys_are_separate op1 op2 g1 g2 :
  colon_free op1 = true →
  colon_free op2 = true →
  rate_limit_key op1 g1 = rate_limit_key op2 g2 →
  op1 = op2 ∧ g1 = g2.
Proof. apply key_splits_at_first_colon. Qed.

Lemma operations_in_use_are_colon_free :
  Forall (λ operation, colon_free operation.1 = true) rate_limited_operations.
Proof. repeat constructor. Qed.

Section RateLimited.

Context {World Result : Type}.
Variable checkOperationRateLimit :
  string → Z → Z → World → OperationLimit * World.
Variable recordOperationAttempt : string → Z → Z → World → World.
Variable next : World → Outcome Result * World.

Local Abbreviation procedure :=
  (createRateLimitedProcedure checkOperationRateLimit
     recordOperationAttempt next).

(** X24. A rate-limited procedure authenticates first: in private mode a
    request without a user, or from a user who owes the second factor or
    a password change, is refused without a limit check, without a
    recorded attempt and without running the handler, whatever its
    input. *)
Theorem unauthenticated_request_spares_the_limiter
    operation maxAttempts windowMs session input rawInput w :
  (∀ u, session_user session = Some u →
        requiresTwoFactor u = true ∨ mustChangePassword u = true) →
  ∃ e, procedure operation maxAttempts windowMs true session input rawInput w
       = (inl e, w, [])
       ∧ publicProcedure true session = Some e.
Proof.
  intros Hu. unfold createRateLimitedProcedure, publicProcedure.
  destruct (session_user session) as [u|]; [|by eexists].
  destruct (Hu u eq_refl) as [H2|Hp].
  - rewrite H2. by eexists.
  - rewrite Hp. destruct (requiresTwoFactor u); by eexists.
Qed.

End RateLimited.

(** *** Concrete requests *)

Import Samples.

(** X24 on a request without session for a group whose counter is one
    short of the limit. *)
Lemma unauthenticated_request_spares_the_limiter_witness :
  let w : gmap string Z := {[ "permanent-delete:g1" := 4 ]} in
  ∃ e, createRateLimitedProcedure toy_check toy_record toy_handler
         "permanent-delete" 5 HOUR_MS true None None
         (Some (mkInput (Some "g1"))) w
       = (inl e, w, [])
       ∧ publicProcedure true None = Some e.
Proof.
  apply (unauthenticated_request_spares_the_limiter toy_check toy_record
           toy_handler "permanent-delete" 5 HOUR_MS None None
           (Some (mkInput (Some "g1")))
           ({[ "permanent-delete:g1" := 4 ]} : gmap string Z)).
  intros u Hu. discriminate.
Defined.

(** X23 on two spellings that yield one key. *)
Lemma rate_limit_keys_are_separate_witness :
  "restore" = "restore" ∧ "g:1" = "g:1".
Proof.
  apply (rate_limit_keys_are_separate "restore" "restore" "g:1" "g:1").
  - reflexivity.
  - reflexivity.
  - reflexivity.
Defined.

End TrpcMore.

(** * Properties of the lists of groups kept in local storage *)

Module RecentGroupsFacts.
Import PasswordPrompt SafeStorage RecentGroups.

Lemma safeSetJSON_accepted {T} (stringify : T → string) key value ls :
  denied ls = false →
  refuses ls key (stringify value) = false →
  safeSetJSON stringify key value ls = (true, put key (stringify value) ls).
Proof.
  intros Hd Hr. unfold safeSetJSON, setItem, put. by rewrite Hd, Hr.
Qed.

Lemma safeSetJSON_cases {T} (stringify : T → string) key value ls :
  (safeSetJSON stringify key value ls).2 = ls
  ∨ (safeSetJSON stringify key value ls).2 = put key (stringify value) ls.
Proof.
  unfold safeSetJSON, setItem, put.
  destruct (denied ls || refuses ls key (stringify value)); [by left|by right].
Qed.

Lemma put_put key text text' ls :
  put key text' (put key text ls) = put key text' ls.
Proof. unfold put. cbn [items denied refuses]. by rewrite insert_insert_eq. Qed.

Lemma safeGetJSON_put_eq {T} (parse : string → option T) key text d ls :
  denied ls = false →
  safeGetJSON parse key d (put key text ls) = default d (parse text).
Proof.
  intros Hd. unfold safeGetJSON, getItem, put. cbn [denied items].
  rewrite Hd, lookup_insert_eq. by destruct (parse text).
Qed.

Lemma safeGetJSON_put_ne {T} (parse : string → option T) key key' text d ls :
  key ≠ key' →
  safeGetJSON parse key' d (put key text ls) = safeGetJSON parse key' d ls.
Proof.
  intros Hne. unfold safeGetJSON, getItem, put. cbn [denied items].
  by rewrite lookup_insert_ne.
Qed.

(** A write under one key, accepted or not, is invisible to a read under
    another key. *)
Lemma safeGetJSON_other_key {T U} (parse : string → option T)
    (stringify : U → string) key key' value d ls :
  key ≠ key' →
  safeGetJSON parse key' d (safeSetJSON stringify key value ls).2
  = safeGetJSON parse key' d ls.
Proof.
  intros Hne.
  destruct (safeSetJSON_cases stringify key value ls) as [-> | ->]; [done|].
  by apply safeGetJSON_put_ne.
Qed.

(** The plain accessors: a write that reports success is read back, one
    that reports failure changed nothing, and a removed key reads as
    absent. *)
Lemma safe_item_round_trip key value ls :
  ((safeSetItem key value ls).1 = true →
   safeGetItem key (safeSetItem key value ls).2 = Some value)
  ∧ ((safeSetItem key value ls).1 = false →
     (safeSetItem key value ls).2 = ls)
  ∧ ((safeRemoveItem key ls).1 = true →
     safeGetItem key (safeRemoveItem key ls).2 = None)
  ∧ ((safeRemoveItem key ls).1 = false → (safeRemoveItem key ls).2 = ls).
Proof.
  unfold safeSetItem, safeRemoveItem, safeGetItem, setItem, removeItem,
    getItem.
  destruct (denied ls) eqn:Hd; cbn [orb].
  - by repeat split.
  - destruct (refuses ls key value); cbn [fst snd denied items];
      rewrite ?Hd, ?lookup_insert_eq, ?lookup_delete_eq; by repeat split.
Qed.

Lemma nonempty_ids_Forall groups :
  nonempty_ids groups = true ↔ Forall (λ g, id g ≠ EmptyString) groups.
Proof.
  unfold nonempty_ids. induction groups as [|g groups IH]; cbn [forallb].
  - split; [constructor|done].
  - rewrite andb_true_iff, Forall_cons, IH, negb_true_iff.
    by rewrite String.eqb_neq.
Qed.

Lemma not_listed_after_filter (group : RecentGroup)
    (groups : list RecentGroup) :
  id group ∉ (id <$> filter (λ rg, id rg ≠ id group) groups).
Proof.
  intros (rg & Heq & Hin)%list_elem_of_fmap.
  apply list_elem_of_filter in Hin as [Hne _]. by rewrite Heq in Hne.
Qed.

Lemma filter_not_listed (group : RecentGroup) (groups : list RecentGroup) :
  id group ∉ (id <$> groups) →
  filter (λ rg, id rg ≠ id group) groups = groups.
Proof.
  induction groups as [|g groups IH]; [done|].
  rewrite fmap_cons, not_elem_of_cons. intros [Hne Hnot].
  rewrite filter_cons_True by done. by rewrite IH.
Qed.

Lemma NoDup_ids_filter (P : RecentGroup → Prop) `{!∀ g, Decision (P g)}
    (groups : list RecentGroup) :
  NoDup (id <$> groups) → NoDup (id <$> filter P groups).
Proof.
  intros Hnodup.
  apply (sublist_NoDup _ (id <$> groups)); [done|].
  apply fmap_sublist, sublist_filter.
Qed.

Lemma Forall_kept_by_filter {A} (P Q : A → Prop) `{!∀ x, Decision (P x)}
    (l : list A) :
  Forall Q l → Forall Q (filter P l).
Proof.
  rewrite !Forall_forall. intros Hl x Hx.
  apply list_elem_of_filter in Hx as [_ Hx]. by apply Hl.
Qed.

Lemma not_in_take {A} (x : A) n (l : list A) : x ∉ l → x ∉ take n l.
Proof.
  intros Hnot (i & Hi & _)%elem_of_take. apply Hnot.
  by eapply list_elem_of_lookup_2.
Qed.

Section Lists.

Context {Json : Type}.
Variable JSON_parse : string → option Json.
Variable JSON_stringify : Json → string.
Variable empty_array : Json.
Variable of_groups : list RecentGroup → Json.
Variable as_groups : Json → option (list RecentGroup).
Variable of_ids : list string → Json.
Variable as_ids : Json → option (list string).

Local Abbreviation recent :=
  (getRecentGroups JSON_parse empty_array as_groups).
Local Abbreviation save :=
  (saveRecentGroup JSON_parse JSON_stringify empty_array of_groups as_groups).
Local Abbreviation remove :=
  (deleteRecentGroup JSON_parse JSON_stringify empty_array of_groups
     as_groups).
Local Abbreviation starred := (getStarredGroups JSON_parse empty_array as_ids).
Local Abbreviation star :=
  (starGroup JSON_parse JSON_stringify empty_array of_ids as_ids).
Local Abbreviation unstar :=
  (unstarGroup JSON_parse JSON_stringify empty_array of_ids as_ids).
Local Abbreviation archived :=
  (getArchivedGroups JSON_parse empty_array as_ids).
Local Abbreviation archive :=
  (archiveGroup JSON_parse JSON_stringify empty_array of_ids as_ids).
Local Abbreviation unarchive :=
  (unarchiveGroup JSON_parse JSON_stringify empty_array of_ids as_ids).
Local Abbreviation groups_back :=
  (groups_round_trip JSON_parse JSON_stringify of_groups as_groups).
Local Abbreviation ids_back :=
  (ids_round_trip JSON_parse JSON_stringify of_ids as_ids).

(** What is read always passes the schema. *)
Lemma recent_groups_have_ids limit ls :
  Forall (λ g, id g ≠ EmptyString) (recent limit ls).
Proof.
  unfold getRecentGroups, recentGroupsSchema.
  assert (∀ l : list RecentGroup,
            Forall (λ g, id g ≠ EmptyString) l →
            Forall (λ g, id g ≠ EmptyString) (slice limit l)) as Hslice.
  { intros l Hl. destruct limit; cbn [slice]; [done|by apply Forall_take]. }
  apply Hslice.
  destruct (as_groups _) as [groups|]; [|constructor].
  destruct (nonempty_ids groups) eqn:Hids; [|constructor].
  by apply nonempty_ids_Forall.
Qed.

(** The list read after an accepted write of [groups]. *)
Lemma recent_after_write groups limit ls :
  denied ls = false →
  groups_back groups →
  recent limit (put STORAGE_KEY (JSON_stringify (of_groups groups)) ls)
  = slice limit (if nonempty_ids groups then groups else []).
Proof.
  intros Hd Hback. unfold getRecentGroups.
  rewrite safeGetJSON_put_eq by done.
  unfold groups_round_trip in Hback. unfold recentGroupsSchema.
  destruct (JSON_parse _) as [raw|]; [|done].
  change (as_groups raw = Some groups) in Hback.
  change (default empty_array (Some raw)) with raw. rewrite Hback.
  by destruct (nonempty_ids groups).
Qed.

Lemma starred_after_write ids limit ls :
  denied ls = false →
  ids_back ids →
  starred limit
    (put STARRED_GROUPS_STORAGE_KEY (JSON_stringify (of_ids ids)) ls)
  = slice limit ids.
Proof.
  intros Hd Hback. unfold getStarredGroups.
  rewrite safeGetJSON_put_eq by done.
  unfold ids_round_trip in Hback. unfold starredGroupsSchema.
  destruct (JSON_parse _) as [raw|]; [|done].
  change (as_ids raw = Some ids) in Hback.
  change (default empty_array (Some raw)) with raw. by rewrite Hback.
Qed.

(** X25. An accepted [saveRecentGroup] of a group with a non-empty id puts
    the group first, followed by the groups that were listed under another
    id, in their order.  The id is listed once, the group heads every
    listing with a positive limit, and a list without repeated ids stays
    one. *)
Theorem saved_group_comes_first group ls :
  let rest := filter (λ rg, id rg ≠ id group) (recent Infinity ls) in
  denied ls = false →
  refuses ls STORAGE_KEY (JSON_stringify (of_groups (group :: rest))) = false →
  groups_back (group :: rest) →
  id group ≠ EmptyString →
  recent Infinity (save group ls) = group :: rest
  ∧ (id group ∉ (id <$> rest))
  ∧ (∀ n, head (recent (AtMost (S n)) (save group ls)) = Some group)
  ∧ (NoDup (id <$> recent Infinity ls) →
     NoDup (id <$> recent Infinity (save group ls))).
Proof.
  intros rest Hd Hr Hback Hid.
  assert (nonempty_ids (group :: rest) = true) as Hids.
  { apply nonempty_ids_Forall, Forall_cons. split; [done|].
    apply Forall_kept_by_filter, recent_groups_have_ids. }
  assert (∀ limit, recent limit (save group ls)
                   = slice limit (group :: rest)) as Hread.
  { intros limit. unfold saveRecentGroup. fold rest.
    rewrite safeSetJSON_accepted by done. cbn [snd].
    rewrite recent_after_write by done. by rewrite Hids. }
  split; [apply Hread|].
  split; [apply not_listed_after_filter|].
  split; [intros n; by rewrite Hread|].
  intros Hnodup. rewrite Hread. cbn [slice]. rewrite fmap_cons.
  apply NoDup_cons. split; [apply not_listed_after_filter|].
  by apply NoDup_ids_filter.
Qed.

(** X26. An accepted [saveRecentGroup] of a group whose id is the empty
    string empties the list for every reader: the stored array no longer
    passes the schema, whatever was listed before. *)
Theorem empty_id_empties_the_list group limit ls :
  let rest := filter (λ rg, id rg ≠ id group) (recent Infinity ls) in
  denied ls = false →
  refuses ls STORAGE_KEY (JSON_stringify (of_groups (group :: rest))) = false →
  groups_back (group :: rest) →
  id group = EmptyString →
  recent limit (save group ls) = [].
Proof.
  intros rest Hd Hr Hback Hid.
  unfold saveRecentGroup. fold rest.
  rewrite safeSetJSON_accepted by done. cbn [snd].
  rewrite recent_after_write by done.
  unfold nonempty_ids. cbn [forallb]. rewrite Hid. cbn.
  by destruct limit as [|[|n]].
Qed.

(** X27. Saving a group and deleting it again, both writes accepted, leaves
    the groups that were listed under another id, in their order; a group
    that was not listed before leaves the list as it was. *)
Theorem delete_undoes_save group ls :
  let rest := filter (λ rg, id rg ≠ id group) (recent Infinity ls) in
  denied ls = false →
  refuses ls STORAGE_KEY (JSON_stringify (of_groups (group :: rest))) = false →
  refuses ls STORAGE_KEY (JSON_stringify (of_groups rest)) = false →
  groups_back (group :: rest) →
  groups_back rest →
  id group ≠ EmptyString →
  recent Infinity (remove group (save group ls)) = rest
  ∧ (id group ∉ (id <$> recent Infinity (remove group (save group ls))))
  ∧ (id group ∉ (id <$> recent Infinity ls) →
     recent Infinity (remove group (save group ls)) = recent Infinity ls).
Proof.
  intros rest Hd Hr1 Hr2 Hback1 Hback2 Hid.
  assert (Forall (λ g, id g ≠ EmptyString) rest) as Hrest.
  { apply Forall_kept_by_filter, recent_groups_have_ids. }
  assert (recent Infinity (remove group (save group ls)) = rest) as Hread.
  { unfold deleteRecentGroup.
    assert (save group ls
            = put STORAGE_KEY (JSON_stringify (of_groups (group :: rest))) ls)
      as ->.
    { unfold saveRecentGroup. fold rest.
      by rewrite safeSetJSON_accepted. }
    rewrite recent_after_write by done.
    replace (nonempty_ids (group :: rest)) with true
      by (symmetry; apply nonempty_ids_Forall, Forall_cons; done).
    cbn [slice]. rewrite filter_cons_False by (intros Hne; by apply Hne).
    replace (filter (λ rg, id rg ≠ id group) rest) with rest
      by (symmetry; apply filter_not_listed, not_listed_after_filter).
    rewrite safeSetJSON_accepted by done. cbn [snd].
    rewrite put_put, recent_after_write by done.
    by replace (nonempty_ids rest) with true
      by (symmetry; by apply nonempty_ids_Forall). }
  split; [done|]. rewrite Hread.
  split; [apply not_listed_after_filter|].
  intros Hnot. by apply filter_not_listed.
Qed.

(** X28. An accepted [starGroup] appends the id at the end of the list,
    also when it is listed already; a listing limited to no more entries
    than were starred before does not show the new star. *)
Theorem star_is_appended groupId ls :
  let before := starred Infinity ls in
  denied ls = false →
  refuses ls STARRED_GROUPS_STORAGE_KEY
    (JSON_stringify (of_ids (before ++ [groupId]))) = false →
  ids_back (before ++ [groupId]) →
  starred Infinity (star groupId ls) = before ++ [groupId]
  ∧ (groupId ∈ before → ¬ NoDup (starred Infinity (star groupId ls)))
  ∧ (∀ n, (n ≤ length before)%nat →
       starred (AtMost n) (star groupId ls) = starred (AtMost n) ls).
Proof.
  intros before Hd Hr Hback.
  assert (∀ limit, starred limit (star groupId ls)
                   = slice limit (before ++ [groupId])) as Hread.
  { intros limit. unfold starGroup. fold before.
    rewrite safeSetJSON_accepted by done. cbn [snd].
    by rewrite starred_after_write. }
  split; [apply Hread|].
  split.
  - intros Hin. rewrite Hread. cbn [slice]. rewrite NoDup_app.
    intros (_ & Hdisjoint & _). apply (Hdisjoint groupId Hin). constructor.
  - intros n Hn. rewrite Hread. cbn [slice].
    by rewrite take_app_le.
Qed.

(** X29. An accepted [unstarGroup] removes every occurrence of the id and
    keeps the other ids in their order. *)
Theorem unstar_removes_every_occurrence groupId ls :
  let rest := filter (λ g, g ≠ groupId) (starred Infinity ls) in
  denied ls = false →
  refuses ls STARRED_GROUPS_STORAGE_KEY (JSON_stringify (of_ids rest))
  = false →
  ids_back rest →
  starred Infinity (unstar groupId ls) = rest
  ∧ ∀ limit, groupId ∉ starred limit (unstar groupId ls).
Proof.
  intros rest Hd Hr Hback.
  assert (∀ limit, starred limit (unstar groupId ls) = slice limit rest)
    as Hread.
  { intros limit. unfold unstarGroup. fold rest.
    rewrite safeSetJSON_accepted by done. cbn [snd].
    by rewrite starred_after_write. }
  split; [apply Hread|].
  intros limit. rewrite Hread.
  assert (groupId ∉ rest) as Hnot.
  { intros Hin. apply list_elem_of_filter in Hin as [Hne _]. by apply Hne. }
  destruct limit as [|n]; cbn [slice]; [done|]. by apply not_in_take.
Qed.

Lemma recent_other_key {U} (stringify : U → string) key value limit ls :
  key ≠ STORAGE_KEY →
  recent limit (safeSetJSON stringify key value ls).2 = recent limit ls.
Proof.
  intros Hne. unfold getRecentGroups. by rewrite safeGetJSON_other_key.
Qed.

Lemma starred_other_key {U} (stringify : U → string) key value limit ls :
  key ≠ STARRED_GROUPS_STORAGE_KEY →
  starred limit (safeSetJSON stringify key value ls).2 = starred limit ls.
Proof.
  intros Hne. unfold getStarredGroups. by rewrite safeGetJSON_other_key.
Qed.

Lemma archived_other_key {U} (stringify : U → string) key value limit ls :
  key ≠ ARCHIVED_GROUPS_STORAGE_KEY →
  archived limit (safeSetJSON stringify key value ls).2 = archived limit ls.
Proof.
  intros Hne. unfold getArchivedGroups. by rewrite safeGetJSON_other_key.
Qed.

(** X30. The three lists do not interfere: a change of the starred groups,
    accepted or not, leaves the archived and the recent groups as they
    were, and likewise for the other two lists. *)
Theorem lists_are_independent group groupId limit ls :
  (archived limit (star groupId ls) = archived limit ls
   ∧ archived limit (unstar groupId ls) = archived limit ls
   ∧ recent limit (star groupId ls) = recent limit ls
   ∧ recent limit (unstar groupId ls) = recent limit ls)
  ∧ (starred limit (archive groupId ls) = starred limit ls
     ∧ starred limit (unarchive groupId ls) = starred limit ls
     ∧ recent limit (archive groupId ls) = recent limit ls
     ∧ recent limit (unarchive groupId ls) = recent limit ls)
  ∧ (starred limit (save group ls) = starred limit ls
     ∧ starred limit (remove group ls) = starred limit ls
     ∧ archived limit (save group ls) = archived limit ls
     ∧ archived limit (remove group ls) = archived limit ls).
Proof.
  unfold starGroup, unstarGroup, archiveGroup, unarchiveGroup,
    saveRecentGroup, deleteRecentGroup.
  repeat split;
    first [by apply recent_other_key | by apply starred_other_key
          | by apply archived_other_key].
Qed.

End Lists.

Import Samples MoreSamples.

Local Abbreviation toy_recent :=
  (getRecentGroups toy_json_parse [] toy_as_groups).
Local Abbreviation toy_save :=
  (saveRecentGroup toy_json_parse toy_json_stringify [] toy_of_groups
     toy_as_groups).
Local Abbreviation toy_remove :=
  (deleteRecentGroup toy_json_parse toy_json_stringify [] toy_of_groups
     toy_as_groups).
Local Abbreviation toy_starred := (getStarredGroups toy_json_parse [] toy_as_ids).
Local Abbreviation toy_star :=
  (starGroup toy_json_parse toy_json_stringify [] toy_of_ids toy_as_ids).
Local Abbreviation toy_unstar :=
  (unstarGroup toy_json_parse toy_json_stringify [] toy_of_ids toy_as_ids).

(** X25 on a listed group saved under a new name: it moves to the front
    with the new name. *)
Lemma saved_group_comes_first_witness :
  toy_recent Infinity storage_with_groups = [flat; trip]
  ∧ toy_recent Infinity (toy_save trip_renamed storage_with_groups)
    = [trip_renamed; flat].
Proof.
  split; [reflexivity|].
  refine (eq_trans
            (proj1 (saved_group_comes_first toy_json_parse toy_json_stringify
                      [] toy_of_groups toy_as_groups trip_renamed
                      storage_with_groups _ _ _ _)) _).
  - reflexivity.
  - reflexivity.
  - reflexivity.
  - discriminate.
  - reflexivity.
Defined.

(** X26 on a group without id, saved over two listed groups. *)
Lemma empty_id_empties_the_list_witness :
  toy_recent Infinity (toy_save nameless storage_with_groups) = [].
Proof.
  apply (empty_id_empties_the_list toy_json_parse toy_json_stringify []
           toy_of_groups toy_as_groups nameless Infinity storage_with_groups).
  - reflexivity.
  - reflexivity.
  - reflexivity.
  - reflexivity.
Defined.

(** X27 on a listed group: saved under a new name and deleted, the other
    group is left. *)
Lemma delete_undoes_save_witness :
  toy_recent Infinity
    (toy_remove trip_renamed (toy_save trip_renamed storage_with_groups))
  = [flat].
Proof.
  refine (eq_trans
            (proj1 (delete_undoes_save toy_json_parse toy_json_stringify
                      [] toy_of_groups toy_as_groups trip_renamed
                      storage_with_groups _ _ _ _ _ _)) _).
  - reflexivity.
  - reflexivity.
  - reflexivity.
  - reflexivity.
  - reflexivity.
  - discriminate.
  - reflexivity.
Defined.

(** X28 on a group that is starred already: it is listed twice. *)
Lemma star_is_appended_witness :
  toy_starred Infinity (toy_star "g2" storage_with_groups) = ["g2"; "g2"].
Proof.
  refine (eq_trans
            (proj1 (star_is_appended toy_json_parse toy_json_stringify
                      [] toy_of_ids toy_as_ids "g2" storage_with_groups
                      _ _ _)) _).
  - reflexivity.
  - reflexivity.
  - reflexivity.
  - reflexivity.
Defined.

(** X29 on the group starred twice. *)
Lemma unstar_removes_every_occurrence_witness :
  toy_starred Infinity
    (toy_unstar "g2" (toy_star "g2" storage_with_groups))
  = [].
Proof.
  refine (eq_trans
            (proj1 (unstar_removes_every_occurrence toy_json_parse
                      toy_json_stringify [] toy_of_ids toy_as_ids "g2"
                      (toy_star "g2" storage_with_groups) _ _ _)) _).
  - reflexivity.
  - reflexivity.
  - reflexivity.
  - reflexivity.
Defined.

End RecentGroupsFacts.
